(** * Songs API: a shallow embedding of [main.py] and its properties

    The service keeps two SQLite tables, [songs] and [translations], and
    exposes five HTTP routes over them.  Every route opens its own
    connection ([async with aiosqlite.connect(DB_PATH) as db]), runs a
    few SQL statements on it and calls [db.commit()].

    What is modelled, and how:
    - the database file is a record of two row lists, in insertion
      order; the [id] column of [translations] is read by no query of
      the program and is left out (the position in the list stands for it);
    - a [SELECT] without [ORDER BY] returns rows in the order of the
      access path: [songs] is scanned in table order, the translations
      of a song are read through the index on (song_number, language)
      and come out by language;
    - SQL statements are functions on the database that either change
      it or report a constraint violation; the constraints are those of
      the two [CREATE TABLE] statements of [init_db];
    - a connection carries the committed file, its own view of it
      (committed rows plus the writes of the open transaction) and the
      [foreign_keys] pragma, which SQLite switches off for every new
      connection and which the program never switches on;
    - route handlers live in a state-and-exception monad over the
      connection; leaving the [async with] block closes the connection
      and whatever was not committed is gone. *)

From Stdlib Require Import String List Bool Sorting.Permutation Sorting.Sorted.
Import ListNotations.
Local Open Scope string_scope.
Local Open Scope list_scope.

(** ** Pydantic models *)

Record Translation := mkTranslation {
  language : string;
  title : string;
  text : string
}.

Record Song := mkSong {
  song_number : string;
  title_ta : string;
  text_ta : string;
  translations : list Translation
}.

(** [SongUpdate]: every field is [Optional[...] = None]. *)
Module SongUpdate.

Record t := mk {
  title_ta : option string;
  text_ta : option string;
  translations : option (list Translation)
}.

End SongUpdate.

(** Python truthiness of an [Optional[str]]: [None] and [""] are falsy. *)
Definition truthy (o : option string) : bool :=
  match o with
  | Some s => negb (s =? "")
  | None => false
  end.

(** ** The store *)

(** A row of [songs(song_number PRIMARY KEY, title_ta, text_ta)]. *)
Record songs_row := mk_songs_row {
  s_song_number : string;
  s_title_ta : string;
  s_text_ta : string
}.

(** A row of [translations(song_number, language, title, text)],
    [UNIQUE(song_number, language)]. *)
Record translations_row := mk_translations_row {
  t_song_number : string;
  t_language : string;
  t_title : string;
  t_text : string
}.

Record Database := mkDatabase {
  tbl_songs : list songs_row;
  tbl_translations : list translations_row
}.

(** [init_db]: [CREATE TABLE IF NOT EXISTS] for both tables.  [None] is
    a path with no tables yet; they are created empty.  Tables that
    exist are left as they are. *)
Definition fresh_db : Database := mkDatabase [] [].

Definition init_db (file : option Database) : Database :=
  match file with
  | None => fresh_db
  | Some d => d
  end.

Definition song_is (sn : string) (r : songs_row) : bool :=
  s_song_number r =? sn.

Definition translation_of (sn : string) (r : translations_row) : bool :=
  t_song_number r =? sn.

Definition translation_is (sn lang : string) (r : translations_row) : bool :=
  (t_song_number r =? sn) && (t_language r =? lang).

Definition has_song (sn : string) (d : Database) : bool :=
  existsb (song_is sn) (tbl_songs d).

Definition has_translation (sn lang : string) (d : Database) : bool :=
  existsb (translation_is sn lang) (tbl_translations d).

(** ** SQL statements *)

Inductive sql_result :=
| Changed (d : Database)
| UniqueConflict          (* PRIMARY KEY or UNIQUE violated *)
| ForeignKeyFailure.      (* FOREIGN KEY violated, only with the pragma on *)

(** A statement sees the connection's [foreign_keys] pragma. *)
Definition statement := bool -> Database -> sql_result.

(** [INSERT INTO songs(song_number, title_ta, text_ta) VALUES (?, ?, ?)] *)
Definition insert_into_songs (sn ti te : string) : statement :=
  fun _ d =>
    if has_song sn d then UniqueConflict
    else Changed (mkDatabase (tbl_songs d ++ [mk_songs_row sn ti te])
                             (tbl_translations d)).

(** [INSERT INTO translations(song_number, language, title, text)
     VALUES (?, ?, ?, ?)] *)
Definition insert_into_translations (sn lang ti te : string) : statement :=
  fun fk d =>
    if has_translation sn lang d then UniqueConflict
    else if fk && negb (has_song sn d) then ForeignKeyFailure
    else Changed (mkDatabase (tbl_songs d)
                    (tbl_translations d ++ [mk_translations_row sn lang ti te])).

(** [INSERT OR IGNORE ...]: a row that violates a uniqueness constraint
    is skipped. *)
Definition or_ignore (stmt : statement) : statement :=
  fun fk d =>
    match stmt fk d with
    | UniqueConflict => Changed d
    | r => r
    end.

(** [... ON CONFLICT(song_number, language) DO UPDATE SET
     title=excluded.title, text=excluded.text] on an insert of
    [(sn, lang, ti, te)]. *)
Definition set_title_text (sn lang ti te : string) (r : translations_row)
  : translations_row :=
  if translation_is sn lang r
  then mk_translations_row (t_song_number r) (t_language r) ti te
  else r.

Definition on_conflict_do_update (sn lang ti te : string) (stmt : statement)
  : statement :=
  fun fk d =>
    match stmt fk d with
    | UniqueConflict =>
        Changed (mkDatabase (tbl_songs d)
                   (map (set_title_text sn lang ti te) (tbl_translations d)))
    | r => r
    end.

(** [UPDATE songs SET <fields> WHERE song_number=?].  The handler builds
    the [SET] list as a list of ["col=?"] fragments and a parallel list
    of parameters with the key appended last. *)
Inductive field := title_ta_eq | text_ta_eq.

Definition assign (r : songs_row) (fv : field * string) : songs_row :=
  match fv with
  | (title_ta_eq, v) => mk_songs_row (s_song_number r) v (s_text_ta r)
  | (text_ta_eq, v) => mk_songs_row (s_song_number r) (s_title_ta r) v
  end.

Definition update_songs_set (fields : list field) (params : list string)
  : statement :=
  fun _ d =>
    let key := last params "" in
    let sets := combine fields (removelast params) in
    Changed (mkDatabase
               (map (fun r => if song_is key r then fold_left assign sets r
                              else r) (tbl_songs d))
               (tbl_translations d)).

(** [DELETE FROM songs WHERE song_number=?].  The [ON DELETE CASCADE]
    clause of [translations] acts only on a connection whose
    [foreign_keys] pragma is on. *)
Definition delete_from_songs (sn : string) : statement :=
  fun fk d =>
    Changed (mkDatabase
               (filter (fun r => negb (song_is sn r)) (tbl_songs d))
               (if fk
                then filter (fun r => negb (translation_of sn r))
                       (tbl_translations d)
                else tbl_translations d)).

(** ** Connections and the handler monad *)

Inductive Exception :=
| HTTPException (status_code : nat) (detail : string)
| IntegrityError.

Inductive outcome (A : Type) :=
| Returned (a : A)
| Raised (e : Exception).
Arguments Returned {A} a.
Arguments Raised {A} e.

Record Connection := mkConnection {
  committed : Database;    (* the file as other connections see it *)
  view : Database;         (* the file plus this connection's open writes *)
  foreign_keys : bool
}.

Definition Async (A : Type) := Connection -> outcome A * Connection.

Definition ret {A} (a : A) : Async A := fun c => (Returned a, c).

Definition raise {A} (e : Exception) : Async A := fun c => (Raised e, c).

Definition bind {A B} (m : Async A) (k : A -> Async B) : Async B :=
  fun c =>
    match m c with
    | (Returned a, c') => k a c'
    | (Raised e, c') => (Raised e, c')
    end.

Declare Scope async_scope.
Delimit Scope async_scope with async.
Notation "x <- m ;; k" := (bind m (fun x => k))
  (at level 61, m at next level, right associativity) : async_scope.
Notation "m ;; k" := (bind m (fun _ => k))
  (at level 61, right associativity) : async_scope.
Local Open Scope async_scope.

(** [for x in xs: await f(x)] *)
Fixpoint for_each {A} (xs : list A) (f : A -> Async unit) : Async unit :=
  match xs with
  | [] => ret tt
  | x :: rest => f x ;; for_each rest f
  end.

(** [try: m  except aiosqlite.IntegrityError: h] *)
Definition except_IntegrityError {A} (m h : Async A) : Async A :=
  fun c =>
    match m c with
    | (Raised IntegrityError, c') => h c'
    | r => r
    end.

(** [await db.execute(stmt)] for a writing statement. *)
Definition execute (stmt : statement) : Async unit :=
  fun c =>
    match stmt (foreign_keys c) (view c) with
    | Changed d' => (Returned tt, mkConnection (committed c) d' (foreign_keys c))
    | UniqueConflict | ForeignKeyFailure => (Raised IntegrityError, c)
    end.

(** [await db.execute("SELECT ... FROM songs ...")]: the cursor's rows. *)
Definition select_songs : Async (list songs_row) :=
  fun c => (Returned (tbl_songs (view c)), c).

Definition select_songs_where (sn : string) : Async (list songs_row) :=
  fun c => (Returned (filter (song_is sn) (tbl_songs (view c))), c).

Definition row_Translation (r : translations_row) : Translation :=
  mkTranslation (t_language r) (t_title r) (t_text r).

(** The rows of one song come out of the index that
    [UNIQUE(song_number, language)] creates: by language, in byte order
    (the column has the default [BINARY] collation), and rows of the
    same language by id. *)
Fixpoint insert_by_language (r : translations_row) (l : list translations_row)
  : list translations_row :=
  match l with
  | [] => [r]
  | x :: rest =>
      if String.leb (t_language r) (t_language x)
      then r :: x :: rest
      else x :: insert_by_language r rest
  end.

Fixpoint index_order (l : list translations_row) : list translations_row :=
  match l with
  | [] => []
  | r :: rest => insert_by_language r (index_order rest)
  end.

(** [SELECT language, title, text FROM translations WHERE song_number=?];
    the statement has no [ORDER BY] and is answered through the index. *)
Definition select_translations_where (sn : string) : Async (list Translation) :=
  fun c => (Returned (map row_Translation
                        (index_order
                           (filter (translation_of sn) (tbl_translations (view c))))), c).

(** [... WHERE song_number=? AND language=?] *)
Definition select_translations_where_language (sn lang : string)
  : Async (list Translation) :=
  fun c => (Returned (map row_Translation
                        (filter (translation_is sn lang) (tbl_translations (view c)))), c).

(** [cursor.fetchone()] *)
Definition fetchone {A} (rows : list A) : option A := hd_error rows.

(** [await db.commit()] *)
Definition commit : Async unit :=
  fun c => (Returned tt, mkConnection (view c) (view c) (foreign_keys c)).

(** A route handler: from the file before the request to the response
    and the file after it. *)
Definition Api (A : Type) := Database -> outcome A * Database.

(** [async with aiosqlite.connect(DB_PATH) as db: body].  The new
    connection sees the committed file, has [foreign_keys] off, and
    on exit, normal or by exception, only what was committed stays. *)
Definition connect {A} (body : Async A) : Api A :=
  fun d =>
    let (r, c) := body (mkConnection d d false) in (r, committed c).

(** Awaiting another handler from inside a connection block: the callee
    opens its own connection on the committed file. *)
Definition await {A} (h : Api A) : Async A :=
  fun c =>
    let (r, d) := h (committed c) in
    (r, mkConnection d (view c) (foreign_keys c)).

(** ** Bootstrap loader *)

(** One object of [data.json]; [item.get('translations', [])] makes the
    [translations] key optional. *)
Record seed_item := mk_seed_item {
  seed_song_number : string;
  seed_title_ta : string;
  seed_text_ta : string;
  seed_translations : option (list Translation)
}.

Definition get_translations (item : seed_item) : list Translation :=
  match seed_translations item with
  | Some ts => ts
  | None => []
  end.

(** [data_file] is [None] when [os.path.exists(DATA_FILE)] is false. *)
Definition load_initial_data (data_file : option (list seed_item)) : Api unit :=
  match data_file with
  | None => fun d => (Returned tt, d)
  | Some data =>
      connect (
        for_each data (fun item =>
          execute (or_ignore (insert_into_songs (seed_song_number item)
                                (seed_title_ta item) (seed_text_ta item))) ;;
          for_each (get_translations item) (fun t =>
            execute (or_ignore (insert_into_translations (seed_song_number item)
                                  (language t) (title t) (text t))))) ;;
        commit)
  end.

(** ** Route handlers *)

Definition translations_for (sn : string) (language : option string)
  : Async (list Translation) :=
  match language with
  | Some lang =>
      if truthy language
      then select_translations_where_language sn lang
      else select_translations_where sn
  | None => select_translations_where sn
  end.

(** [GET /songs] *)
Fixpoint get_songs_rows (language : option string) (rows : list songs_row)
  : Async (list Song) :=
  match rows with
  | [] => ret []
  | r :: rest =>
      ts <- translations_for (s_song_number r) language ;;
      songs <- get_songs_rows language rest ;;
      ret (mkSong (s_song_number r) (s_title_ta r) (s_text_ta r) ts :: songs)
  end.

Definition get_songs (language : option string) : Api (list Song) :=
  connect (
    cursor <- select_songs ;;
    get_songs_rows language cursor).

(** [GET /songs/{song_number}] *)
Definition get_song (song_number : string) (language : option string) : Api Song :=
  connect (
    cursor <- select_songs_where song_number ;;
    match fetchone cursor with
    | None => raise (HTTPException 404 "Song not found")
    | Some row =>
        ts <- translations_for (s_song_number row) language ;;
        ret (mkSong (s_song_number row) (s_title_ta row) (s_text_ta row) ts)
    end).

(** [POST /songs] *)
Definition create_song (song : Song) : Api Song :=
  connect (
    except_IntegrityError
      (execute (insert_into_songs (song_number song) (title_ta song) (text_ta song)))
      (raise (HTTPException 400 "Song already exists")) ;;
    for_each (translations song) (fun t =>
      execute (insert_into_translations (song_number song)
                 (language t) (title t) (text t))) ;;
    commit ;;
    ret song).

(** [PATCH /songs/{song_number}] *)
Definition set_clause (song : SongUpdate.t) (song_number : string)
  : list field * list string :=
  let fields := [] in
  let params := [] in
  let '(fields, params) :=
    match SongUpdate.title_ta song with
    | Some v => if truthy (Some v)
                then (fields ++ [title_ta_eq], params ++ [v])
                else (fields, params)
    | None => (fields, params)
    end in
  let '(fields, params) :=
    match SongUpdate.text_ta song with
    | Some v => if truthy (Some v)
                then (fields ++ [text_ta_eq], params ++ [v])
                else (fields, params)
    | None => (fields, params)
    end in
  (fields, params ++ [song_number]).

Definition update_song (song_number : string) (song : SongUpdate.t) : Api Song :=
  connect (
    cur <- select_songs_where song_number ;;
    match fetchone cur with
    | None => raise (HTTPException 404 "Song not found")
    | Some _ => ret tt
    end ;;
    (if truthy (SongUpdate.title_ta song) || truthy (SongUpdate.text_ta song)
     then let '(fields, params) := set_clause song song_number in
          execute (update_songs_set fields params)
     else ret tt) ;;
    match SongUpdate.translations song with
    | Some ((_ :: _) as ts) =>
        for_each ts (fun t =>
          execute (on_conflict_do_update song_number (language t) (title t) (text t)
                     (insert_into_translations song_number
                        (language t) (title t) (text t))))
    | Some [] | None => ret tt
    end ;;
    commit ;;
    await (get_song song_number None)).

(** [DELETE /songs/{song_number}] *)
Definition delete_song (song_number : string) : Api unit :=
  connect (
    execute (delete_from_songs song_number) ;;
    commit ;;
    ret tt).

(** The states the service can be in: [init_db] on a fresh path, then
    any sequence of bootstrap loads and requests. *)
Inductive reachable : Database -> Prop :=
| reach_init : reachable (init_db None)
| reach_load data_file d :
    reachable d -> reachable (snd (load_initial_data data_file d))
| reach_get_songs lang d :
    reachable d -> reachable (snd (get_songs lang d))
| reach_get_song sn lang d :
    reachable d -> reachable (snd (get_song sn lang d))
| reach_create song d :
    reachable d -> reachable (snd (create_song song d))
| reach_update sn song d :
    reachable d -> reachable (snd (update_song sn song d))
| reach_delete sn d :
    reachable d -> reachable (snd (delete_song sn d)).

(** ** Reading the store

    What the two [SELECT]s on [translations] return for a song, as
    functions of the file: all its translations, by language as the
    index yields them, and those of one language. *)

Definition all_translations (sn : string) (d : Database) : list Translation :=
  map row_Translation
      (index_order (filter (translation_of sn) (tbl_translations d))).

Definition translations_in (lang sn : string) (d : Database) : list Translation :=
  map row_Translation (filter (translation_is sn lang) (tbl_translations d)).

Definition shown_translations (language : option string) (sn : string)
  (d : Database) : list Translation :=
  if truthy language
  then match language with
       | Some lang => translations_in lang sn d
       | None => all_translations sn d
       end
  else all_translations sn d.

Definition shown_song (language : option string) (d : Database) (r : songs_row)
  : Song :=
  mkSong (s_song_number r) (s_title_ta r) (s_text_ta r)
    (shown_translations language (s_song_number r) d).

(** The schema's two uniqueness constraints, as a property of a file. *)
Definition translation_key (r : translations_row) : string * string :=
  (t_song_number r, t_language r).

Definition unique_keys (d : Database) : Prop :=
  NoDup (map s_song_number (tbl_songs d)) /\
  NoDup (map translation_key (tbl_translations d)).

(** ** Derived definitions

    The handlers read as functions on the file, and the vocabulary of
    the properties below. *)

(** Blocks that cannot fail on a connection with [foreign_keys] off:
    [runs_as m g] says [m] returns and turns the view [d] into [g d],
    touching nothing else. *)
Definition runs_as (m : Async unit) (g : Database -> Database) : Prop :=
  forall c, foreign_keys c = false ->
            m c = (Returned tt, mkConnection (committed c) (g (view c)) false).

(** One [INSERT OR IGNORE INTO songs]. *)
Definition put_song (sn ti te : string) (d : Database) : Database :=
  if has_song sn d then d
  else mkDatabase (tbl_songs d ++ [mk_songs_row sn ti te]) (tbl_translations d).

(** One [INSERT OR IGNORE INTO translations], foreign keys off. *)
Definition put_translation (sn : string) (d : Database) (t : Translation)
  : Database :=
  if has_translation sn (language t) d then d
  else mkDatabase (tbl_songs d)
         (tbl_translations d ++
            [mk_translations_row sn (language t) (title t) (text t)]).

(** One [INSERT ... ON CONFLICT DO UPDATE], foreign keys off. *)
Definition upsert_translation (sn : string) (d : Database) (t : Translation)
  : Database :=
  if has_translation sn (language t) d
  then mkDatabase (tbl_songs d)
         (map (set_title_text sn (language t) (title t) (text t))
              (tbl_translations d))
  else mkDatabase (tbl_songs d)
         (tbl_translations d ++
            [mk_translations_row sn (language t) (title t) (text t)]).

(** What the loader does with one seed object. *)
Definition load_item (d : Database) (item : seed_item) : Database :=
  fold_left (put_translation (seed_song_number item)) (get_translations item)
    (put_song (seed_song_number item) (seed_title_ta item) (seed_text_ta item) d).

(** The [DELETE] of the handler, foreign keys off. *)
Definition without_song (sn : string) (d : Database) : Database :=
  mkDatabase (filter (fun r => negb (song_is sn r)) (tbl_songs d))
             (tbl_translations d).

(** The [UPDATE] step of [PATCH], when it runs. *)
Definition patch_columns (sn : string) (song : SongUpdate.t) (d : Database)
  : Database :=
  if truthy (SongUpdate.title_ta song) || truthy (SongUpdate.text_ta song)
  then match update_songs_set (fst (set_clause song sn))
               (snd (set_clause song sn)) false d with
       | Changed d' => d'
       | _ => d
       end
  else d.

(** The upsert loop of [PATCH]. *)
Definition patch_translations (sn : string) (song : SongUpdate.t) (d : Database)
  : Database :=
  match SongUpdate.translations song with
  | Some ts => fold_left (upsert_translation sn) ts d
  | None => d
  end.

(** The file after a [PATCH] of an existing song. *)
Definition patched (sn : string) (song : SongUpdate.t) (d : Database) : Database :=
  patch_translations sn song (patch_columns sn song d).

(** The view after the song insert of [POST]. *)
Definition with_song (song : Song) (d : Database) : Database :=
  mkDatabase (tbl_songs d ++
                [mk_songs_row (song_number song) (title_ta song) (text_ta song)])
             (tbl_translations d).

(** The loop of plain [INSERT]s into [translations], foreign keys off:
    [None] when one of them violates [UNIQUE(song_number, language)]. *)
Fixpoint insert_all (sn : string) (ts : list Translation) (d : Database)
  : option Database :=
  match ts with
  | [] => Some d
  | t :: rest =>
      if has_translation sn (language t) d then None
      else insert_all sn rest
             (mkDatabase (tbl_songs d)
                (tbl_translations d ++
                   [mk_translations_row sn (language t) (title t) (text t)]))
  end.

(** The value a column ends up with: a falsy request field keeps the
    old one. *)
Definition new_value (o : option string) (old : string) : string :=
  if truthy o
  then match o with Some v => v | None => old end
  else old.

(** The [songs] row of [sn] after a [PATCH]; other rows are not touched. *)
Definition patch_row (sn : string) (song : SongUpdate.t) (r : songs_row)
  : songs_row :=
  if song_is sn r
  then mk_songs_row (s_song_number r)
         (new_value (SongUpdate.title_ta song) (s_title_ta r))
         (new_value (SongUpdate.text_ta song) (s_text_ta r))
  else r.

(** The two listings the specification describes: every song with its
    translations cut down to language [X], and every song with all of
    its translations. *)
Definition songs_filtered_to (X : string) (d : Database) : list Song :=
  map (fun r => mkSong (s_song_number r) (s_title_ta r) (s_text_ta r)
                  (filter (fun t => language t =? X)
                          (all_translations (s_song_number r) d)))
      (tbl_songs d).

Definition songs_with_all (d : Database) : list Song :=
  map (fun r => mkSong (s_song_number r) (s_title_ta r) (s_text_ta r)
                  (all_translations (s_song_number r) d))
      (tbl_songs d).

(** A translation row is mentioned by a [PATCH /songs/sn] when it
    belongs to [sn] and its language occurs in the request body. *)
Definition mentioned (sn : string) (song : SongUpdate.t) (r : translations_row)
  : bool :=
  translation_of sn r &&
  match SongUpdate.translations song with
  | Some ts => existsb (fun t => language t =? t_language r) ts
  | None => false
  end.

Definition unmentioned (sn : string) (song : SongUpdate.t) (r : translations_row)
  : bool :=
  negb (mentioned sn song r).

(** The last entry of a request body for language [lang], the one whose
    upsert is executed last. *)
Definition last_for (lang : string) (ts : list Translation) : option Translation :=
  find (fun t => language t =? lang) (rev ts).

(** The loader as one flat sequence of [INSERT OR IGNORE] statements. *)
Inductive seed_row :=
| SeedSong (sn ti te : string)
| SeedTranslation (sn : string) (t : Translation).

Definition put (d : Database) (r : seed_row) : Database :=
  match r with
  | SeedSong sn ti te => put_song sn ti te d
  | SeedTranslation sn t => put_translation sn d t
  end.

Definition present (r : seed_row) (d : Database) : bool :=
  match r with
  | SeedSong sn _ _ => has_song sn d
  | SeedTranslation sn t => has_translation sn (language t) d
  end.

Definition seed_rows (item : seed_item) : list seed_row :=
  SeedSong (seed_song_number item) (seed_title_ta item) (seed_text_ta item)
  :: map (SeedTranslation (seed_song_number item)) (get_translations item).

(** [d'] holds the rows of [d], unchanged and in place, and maybe more
    after them. *)
Definition extends (d d' : Database) : Prop :=
  exists s t, tbl_songs d' = tbl_songs d ++ s /\
              tbl_translations d' = tbl_translations d ++ t.

(** ** Startup and further vocabulary *)

(** [startup_event]: [await init_db()], then [await load_initial_data()]. *)
Definition startup_event (file : option Database)
  (data_file : option (list seed_item)) : Database :=
  snd (load_initial_data data_file (init_db file)).

(** The row a translation of song [sn] is stored as. *)
Definition row_of (sn : string) (t : Translation) : translations_row :=
  mk_translations_row sn (language t) (title t) (text t).

(** The translations of a [POST] payload can all be inserted: no
    language twice, and none that song [sn] already has a row for. *)
Definition insertable (sn : string) (ts : list Translation) (d : Database) : Prop :=
  NoDup (map language ts) /\
  forall t, In t ts -> has_translation sn (language t) d = false.

(** A [PATCH] body in which nothing is truthy. *)
Definition nothing_to_write (song : SongUpdate.t) : bool :=
  negb (truthy (SongUpdate.title_ta song)) &&
  negb (truthy (SongUpdate.text_ta song)) &&
  match SongUpdate.translations song with
  | Some (_ :: _) => false
  | Some [] | None => true
  end.

(** Every translation row has its song. *)
Definition no_orphans (d : Database) : Prop :=
  forall r, In r (tbl_translations d) -> has_song (t_song_number r) d = true.

(** The states reachable when no [DELETE] request is ever made. *)
Inductive reachable_without_delete : Database -> Prop :=
| rwd_init : reachable_without_delete (init_db None)
| rwd_load data_file d :
    reachable_without_delete d ->
    reachable_without_delete (snd (load_initial_data data_file d))
| rwd_get_songs lang d :
    reachable_without_delete d ->
    reachable_without_delete (snd (get_songs lang d))
| rwd_get_song sn lang d :
    reachable_without_delete d ->
    reachable_without_delete (snd (get_song sn lang d))
| rwd_create song d :
    reachable_without_delete d ->
    reachable_without_delete (snd (create_song song d))
| rwd_update sn song d :
    reachable_without_delete d ->
    reachable_without_delete (snd (update_song sn song d)).

(** The first object of the seed file with song number [sn]. *)
Definition first_seed (sn : string) (data : list seed_item) : option seed_item :=
  find (fun item => seed_song_number item =? sn) data.

(** The first translation for language [lang] among the seed objects
    with song number [sn], in file order. *)
Definition first_seed_translation (sn lang : string) (data : list seed_item)
  : option Translation :=
  find (fun t => language t =? lang)
       (flat_map get_translations
          (filter (fun item => seed_song_number item =? sn) data)).

(** One upsert of [PATCH], on the rows of [translations] alone. *)
Definition upsert_rows (sn : string) (l : list translations_row) (t : Translation)
  : list translations_row :=
  if existsb (translation_is sn (language t)) l
  then map (set_title_text sn (language t) (title t) (text t)) l
  else l ++ [row_of sn t].

(** A row of song [sn] with the title and text of the body's last entry
    for its language, if the body has one. *)
Definition retitle (sn : string) (ts : list Translation) (r : translations_row)
  : translations_row :=
  if translation_of sn r
  then match last_for (t_language r) ts with
       | Some t => mk_translations_row (t_song_number r) (t_language r)
                     (title t) (text t)
       | None => r
       end
  else r.

(** Two translations in the order of their languages. *)
Definition language_le (a b : Translation) : Prop :=
  String.leb (language a) (language b) = true.

Definition row_language_le (a b : translations_row) : Prop :=
  String.leb (t_language a) (t_language b) = true.

(** ** Sample data

    A song with one translation, the store that holds just it, that
    store after the song was deleted, a request with the same language
    twice, and a seed file that overlaps the store. *)

Definition song_S1 : Song :=
  mkSong "S1" "t" "x" [mkTranslation "en" "a" "b"].

Definition db_S1 : Database := snd (create_song song_S1 (init_db None)).

Definition db_S1_deleted : Database := snd (delete_song "S1" db_S1).

Definition db_two_songs : Database :=
  snd (create_song (mkSong "S2" "t2" "x2" [mkTranslation "en" "c" "d"]) db_S1).

Definition seed_twice : list seed_item :=
  [ mk_seed_item "S1" "first" "one" (Some [mkTranslation "en" "a" "b"]);
    mk_seed_item "S1" "second" "two" (Some [mkTranslation "en" "c" "d"]) ].

Definition song_fr_en : Song :=
  mkSong "S1" "t" "x" [mkTranslation "fr" "c" "d"; mkTranslation "en" "a" "b"].

Definition db_fr_en : Database := snd (create_song song_fr_en (init_db None)).

Definition song_two_en : Song :=
  mkSong "S2" "t" "x" [mkTranslation "en" "a" "b"; mkTranslation "en" "c" "d"].

Definition seed_example : list seed_item :=
  [ mk_seed_item "S1" "other" "other"
      (Some [mkTranslation "en" "other" "other"; mkTranslation "ta" "1" "2"]);
    mk_seed_item "S3" "q" "q" None ].

(** * Properties *)

(** ** Basic facts about the tables *)

Lemma filter_song_is_nil sn d :
  has_song sn d = false -> filter (song_is sn) (tbl_songs d) = [].
Proof.
  unfold has_song. induction (tbl_songs d) as [|r l IH]; simpl; auto.
  destruct (song_is sn r); simpl; [discriminate | auto].
Qed.

Lemma filter_song_is_cons sn d :
  has_song sn d = true ->
  exists r rest, filter (song_is sn) (tbl_songs d) = r :: rest /\
                 s_song_number r = sn /\ In r (tbl_songs d).
Proof.
  unfold has_song. induction (tbl_songs d) as [|r l IH]; simpl; [discriminate|].
  destruct (song_is sn r) eqn:E; simpl; intro H.
  - exists r, (filter (song_is sn) l). repeat split; auto.
    now apply String.eqb_eq.
  - destruct (IH H) as (r' & rest & -> & ? & ?). exists r', rest. auto.
Qed.

Lemma has_song_In sn d :
  has_song sn d = true <-> In sn (map s_song_number (tbl_songs d)).
Proof.
  unfold has_song. rewrite existsb_exists, in_map_iff. unfold song_is.
  split.
  - intros (r & Hin & Heq). exists r. split; auto. now apply String.eqb_eq.
  - intros (r & Heq & Hin). exists r. split; auto. now apply String.eqb_eq.
Qed.

Lemma has_translation_In sn lang d :
  has_translation sn lang d = true <->
  In (sn, lang) (map translation_key (tbl_translations d)).
Proof.
  unfold has_translation. rewrite existsb_exists, in_map_iff.
  unfold translation_is, translation_key.
  split.
  - intros (r & Hin & Heq). exists r. split; auto.
    apply andb_true_iff in Heq as [A B].
    apply String.eqb_eq in A, B. now subst.
  - intros (r & Heq & Hin). exists r. split; auto. inversion Heq; subst.
    now rewrite !String.eqb_refl.
Qed.

Lemma translations_for_run language sn c :
  translations_for sn language c =
  (Returned (shown_translations language sn (view c)), c).
Proof.
  unfold translations_for, shown_translations.
  destruct language as [lang|]; [destruct (truthy (Some lang))|]; reflexivity.
Qed.

(** ** The reading handlers *)

Lemma get_song_found sn language d r rest :
  filter (song_is sn) (tbl_songs d) = r :: rest ->
  get_song sn language d = (Returned (shown_song language d r), d).
Proof.
  intro H. unfold get_song, connect, bind, select_songs_where. simpl.
  rewrite H. simpl. rewrite translations_for_run. reflexivity.
Qed.

Lemma get_song_missing sn language d :
  has_song sn d = false ->
  get_song sn language d = (Raised (HTTPException 404 "Song not found"), d).
Proof.
  intro H. unfold get_song, connect, bind, select_songs_where. simpl.
  rewrite (filter_song_is_nil _ _ H). reflexivity.
Qed.

Lemma get_song_store sn language d : snd (get_song sn language d) = d.
Proof.
  destruct (has_song sn d) eqn:E.
  - destruct (filter_song_is_cons _ _ E) as (r & rest & H & _).
    now rewrite (get_song_found _ _ _ _ _ H).
  - now rewrite get_song_missing.
Qed.

Lemma get_songs_rows_run language rows c :
  get_songs_rows language rows c =
  (Returned (map (shown_song language (view c)) rows), c).
Proof.
  induction rows as [|r rows IH]; simpl; [reflexivity|].
  unfold bind. rewrite translations_for_run, IH. reflexivity.
Qed.

Lemma get_songs_run language d :
  get_songs language d =
  (Returned (map (shown_song language d) (tbl_songs d)), d).
Proof.
  unfold get_songs, connect, bind, select_songs. simpl.
  rewrite get_songs_rows_run. reflexivity.
Qed.

(** ** Running the monad *)

Lemma bind_returned {A B} (m : Async A) (k : A -> Async B) c a c' :
  m c = (Returned a, c') -> bind m k c = k a c'.
Proof. intro H. unfold bind. now rewrite H. Qed.

Lemma bind_raised {A B} (m : Async A) (k : A -> Async B) c e c' :
  m c = (Raised e, c') -> bind m k c = (Raised e, c').
Proof. intro H. unfold bind. now rewrite H. Qed.

Lemma runs_as_ret : runs_as (ret tt) (fun d => d).
Proof. intros [cd v fk] H. simpl in H. subst. reflexivity. Qed.

Lemma runs_as_execute (s : statement) g :
  (forall d, s false d = Changed (g d)) -> runs_as (execute s) g.
Proof.
  intros Hs [cd v fk] H. simpl in H. subst. unfold execute. simpl.
  now rewrite Hs.
Qed.

Lemma runs_as_bind m1 m2 g1 g2 :
  runs_as m1 g1 -> runs_as m2 g2 ->
  runs_as (m1 ;; m2) (fun d => g2 (g1 d)).
Proof.
  intros H1 H2 c Hc. unfold bind. rewrite (H1 c Hc).
  now rewrite H2.
Qed.

Lemma runs_as_for_each {A} (xs : list A) (f : A -> Async unit)
      (g : Database -> A -> Database) :
  (forall x, runs_as (f x) (fun d => g d x)) ->
  runs_as (for_each xs f) (fun d => fold_left g xs d).
Proof.
  intro Hf. induction xs as [|x xs IH]; simpl.
  - apply runs_as_ret.
  - apply (runs_as_bind _ _ (fun d => g d x) (fun d => fold_left g xs d));
      auto.
Qed.

(** A block that runs as [g] and is followed by [commit]. *)
Lemma connect_commit {A} (m : Async unit) g (a : A) d :
  runs_as m g ->
  connect (m ;; commit ;; ret a) d = (Returned a, g d).
Proof.
  intro H. unfold connect, bind. now rewrite H.
Qed.

(** ** The writing handlers, statement by statement *)

Lemma or_ignore_song_run sn ti te d :
  or_ignore (insert_into_songs sn ti te) false d = Changed (put_song sn ti te d).
Proof.
  unfold or_ignore, insert_into_songs, put_song.
  now destruct (has_song sn d).
Qed.

Lemma or_ignore_translation_run sn t d :
  or_ignore (insert_into_translations sn (language t) (title t) (text t)) false d
  = Changed (put_translation sn d t).
Proof.
  unfold or_ignore, insert_into_translations, put_translation.
  now destruct (has_translation sn (language t) d).
Qed.

Lemma upsert_run sn t d :
  on_conflict_do_update sn (language t) (title t) (text t)
    (insert_into_translations sn (language t) (title t) (text t)) false d
  = Changed (upsert_translation sn d t).
Proof.
  unfold on_conflict_do_update, insert_into_translations, upsert_translation.
  now destruct (has_translation sn (language t) d).
Qed.

(** *** Bootstrap loader *)

Lemma load_initial_data_run data d :
  load_initial_data (Some data) d = (Returned tt, fold_left load_item data d).
Proof.
  unfold load_initial_data. apply connect_commit.
  apply runs_as_for_each. intro item.
  unfold load_item.
  apply (runs_as_bind _ _
           (put_song (seed_song_number item) (seed_title_ta item)
              (seed_text_ta item))
           (fun d => fold_left (put_translation (seed_song_number item))
                       (get_translations item) d)).
  - apply runs_as_execute. intro. apply or_ignore_song_run.
  - apply runs_as_for_each. intro t. apply runs_as_execute.
    intro. apply or_ignore_translation_run.
Qed.

(** *** DELETE *)

Lemma delete_song_run sn d :
  delete_song sn d = (Returned tt, without_song sn d).
Proof.
  unfold delete_song. apply connect_commit.
  apply runs_as_execute. reflexivity.
Qed.

(** *** PATCH *)

Lemma update_song_missing sn song d :
  has_song sn d = false ->
  update_song sn song d = (Raised (HTTPException 404 "Song not found"), d).
Proof.
  intro H. unfold update_song, connect, bind, select_songs_where. simpl.
  rewrite (filter_song_is_nil _ _ H). reflexivity.
Qed.

Lemma update_song_run sn song d :
  has_song sn d = true ->
  update_song sn song d =
  (fst (get_song sn None (patched sn song d)), patched sn song d).
Proof.
  intro H. destruct (filter_song_is_cons _ _ H) as (r & rest & Hf & _).
  assert (Hcols : runs_as
            (if truthy (SongUpdate.title_ta song) || truthy (SongUpdate.text_ta song)
             then let '(fields, params) := set_clause song sn in
                  execute (update_songs_set fields params)
             else ret tt)
            (patch_columns sn song)).
  { unfold patch_columns.
    destruct (truthy (SongUpdate.title_ta song) || truthy (SongUpdate.text_ta song)).
    - destruct (set_clause song sn) as [fields params]. simpl.
      apply runs_as_execute. reflexivity.
    - apply runs_as_ret. }
  assert (Htrs : runs_as
            match SongUpdate.translations song with
            | Some ((_ :: _) as ts) =>
                for_each ts (fun t =>
                  execute (on_conflict_do_update sn (language t) (title t) (text t)
                             (insert_into_translations sn
                                (language t) (title t) (text t))))
            | Some [] | None => ret tt
            end
            (patch_translations sn song)).
  { unfold patch_translations.
    destruct (SongUpdate.translations song) as [[|t ts]|].
    - apply runs_as_ret.
    - apply runs_as_for_each. intro x. apply runs_as_execute.
      intro. apply upsert_run.
    - apply runs_as_ret. }
  unfold update_song, connect.
  erewrite bind_returned by reflexivity.
  cbn [view]. rewrite Hf. cbn [fetchone hd_error].
  erewrite bind_returned by reflexivity.
  erewrite bind_returned by (apply Hcols; reflexivity).
  erewrite bind_returned by (apply Htrs; reflexivity).
  erewrite bind_returned by reflexivity.
  unfold await. cbn [committed view foreign_keys].
  fold (patched sn song d).
  destruct (get_song sn None (patched sn song d)) as [res d'] eqn:E.
  simpl. f_equal.
  pose proof (get_song_store sn None (patched sn song d)) as S.
  rewrite E in S. simpl in S. now subst.
Qed.

(** *** POST *)

Lemma insert_loop_run sn ts : forall c,
  foreign_keys c = false ->
  match insert_all sn ts (view c) with
  | Some d' =>
      for_each ts (fun t =>
        execute (insert_into_translations sn (language t) (title t) (text t))) c
      = (Returned tt, mkConnection (committed c) d' false)
  | None =>
      exists v,
      for_each ts (fun t =>
        execute (insert_into_translations sn (language t) (title t) (text t))) c
      = (Raised IntegrityError, mkConnection (committed c) v false)
  end.
Proof.
  induction ts as [|t ts IH]; intros [cd v fk] Hfk; simpl in Hfk; subst; simpl.
  - reflexivity.
  - unfold bind, execute, insert_into_translations. simpl.
    destruct (has_translation sn (language t) v) eqn:E.
    + exists v. reflexivity.
    + specialize (IH (mkConnection cd
                        (mkDatabase (tbl_songs v)
                           (tbl_translations v ++
                              [mk_translations_row sn (language t) (title t) (text t)]))
                        false) eq_refl).
      simpl in IH. exact IH.
Qed.

Lemma create_song_run song d :
  create_song song d =
  if has_song (song_number song) d
  then (Raised (HTTPException 400 "Song already exists"), d)
  else match insert_all (song_number song) (translations song) (with_song song d) with
       | Some d' => (Returned song, d')
       | None => (Raised IntegrityError, d)
       end.
Proof.
  unfold create_song, connect.
  destruct (has_song (song_number song) d) eqn:E.
  - erewrite bind_raised.
    2:{ unfold except_IntegrityError, execute, insert_into_songs. simpl.
        rewrite E. reflexivity. }
    reflexivity.
  - erewrite bind_returned; cycle 1.
    { unfold except_IntegrityError, execute, insert_into_songs. simpl.
      rewrite E. reflexivity. }
    fold (with_song song d).
    pose proof (insert_loop_run (song_number song) (translations song)
                  (mkConnection d (with_song song d) false) eq_refl) as L.
    simpl in L.
    destruct (insert_all (song_number song) (translations song) (with_song song d)).
    + erewrite bind_returned by exact L. reflexivity.
    + destruct L as [v L]. erewrite bind_raised by exact L. reflexivity.
Qed.

(** ** The uniqueness constraints hold in every reachable state *)

Lemma NoDup_snoc {A} (l : list A) x : NoDup l -> ~ In x l -> NoDup (l ++ [x]).
Proof.
  intros Hl Hx. apply NoDup_app; auto.
  - constructor; [intros [] | constructor].
  - intros a Ha [<-|[]]. contradiction.
Qed.

Lemma NoDup_map_filter {A B} (f : A -> B) (p : A -> bool) l :
  NoDup (map f l) -> NoDup (map f (filter p l)).
Proof.
  induction l as [|a l IH]; simpl; auto.
  intro H. inversion H as [|? ? Hn Hl]; subst.
  destruct (p a); simpl; auto.
  constructor; auto.
  intro Hin. apply Hn. apply in_map_iff in Hin as (y & <- & Hy).
  apply in_map. now apply filter_In in Hy.
Qed.

Lemma set_title_text_key sn lang ti te r :
  translation_key (set_title_text sn lang ti te r) = translation_key r.
Proof. unfold set_title_text. now destruct (translation_is sn lang r). Qed.

Lemma fold_assign_key sets : forall r,
  s_song_number (fold_left assign sets r) = s_song_number r.
Proof.
  induction sets as [|[[|] v] sets IH]; intro r; simpl; auto;
    now rewrite IH.
Qed.

Lemma unique_with_song song d :
  has_song (song_number song) d = false ->
  unique_keys d -> unique_keys (with_song song d).
Proof.
  intros E [Hs Ht]. split; simpl; auto.
  rewrite map_app. simpl. apply NoDup_snoc; auto.
  intro Hin. apply has_song_In in Hin. congruence.
Qed.

Lemma unique_put_song sn ti te d :
  unique_keys d -> unique_keys (put_song sn ti te d).
Proof.
  intro H. unfold put_song. destruct (has_song sn d) eqn:E; auto.
  apply (unique_with_song (mkSong sn ti te [])); auto.
Qed.

Lemma unique_append_translation sn lang ti te d :
  has_translation sn lang d = false ->
  unique_keys d ->
  unique_keys (mkDatabase (tbl_songs d)
                 (tbl_translations d ++ [mk_translations_row sn lang ti te])).
Proof.
  intros E [Hs Ht]. split; simpl; auto.
  rewrite map_app. simpl. apply NoDup_snoc; auto.
  intro Hin. apply (has_translation_In sn lang d) in Hin. congruence.
Qed.

Lemma unique_put_translation sn d t :
  unique_keys d -> unique_keys (put_translation sn d t).
Proof.
  intro H. unfold put_translation.
  destruct (has_translation sn (language t) d) eqn:E; auto.
  now apply unique_append_translation.
Qed.

Lemma unique_upsert_translation sn d t :
  unique_keys d -> unique_keys (upsert_translation sn d t).
Proof.
  intro H. unfold upsert_translation.
  destruct (has_translation sn (language t) d) eqn:E.
  - destruct H as [Hs Ht]. split; simpl; auto.
    rewrite map_map.
    rewrite (map_ext _ translation_key); auto.
    intro. apply set_title_text_key.
  - now apply unique_append_translation.
Qed.

Lemma unique_fold {A} (g : Database -> A -> Database) xs :
  (forall d x, unique_keys d -> unique_keys (g d x)) ->
  forall d, unique_keys d -> unique_keys (fold_left g xs d).
Proof.
  intro Hg. induction xs as [|x xs IH]; simpl; auto.
Qed.

Lemma unique_insert_all sn ts : forall d d',
  unique_keys d -> insert_all sn ts d = Some d' -> unique_keys d'.
Proof.
  induction ts as [|t ts IH]; simpl; intros d d' H E.
  - inversion E; subst. exact H.
  - destruct (has_translation sn (language t) d) eqn:Ht; [discriminate|].
    eapply IH; [|exact E]. now apply unique_append_translation.
Qed.

Lemma unique_patch_columns sn song d :
  unique_keys d -> unique_keys (patch_columns sn song d).
Proof.
  intros [Hs Ht]. unfold patch_columns.
  destruct (truthy (SongUpdate.title_ta song) || truthy (SongUpdate.text_ta song));
    [|now split].
  split; simpl; auto.
  rewrite map_map. rewrite (map_ext _ s_song_number); auto.
  intro r. destruct (song_is _ r); auto. apply fold_assign_key.
Qed.

Lemma unique_patched sn song d :
  unique_keys d -> unique_keys (patched sn song d).
Proof.
  intro H. unfold patched, patch_translations.
  destruct (SongUpdate.translations song) as [ts|].
  - apply unique_fold; [|now apply unique_patch_columns].
    intros. now apply unique_upsert_translation.
  - now apply unique_patch_columns.
Qed.

Lemma unique_without_song sn d :
  unique_keys d -> unique_keys (without_song sn d).
Proof.
  intros [Hs Ht]. split; simpl; auto. now apply NoDup_map_filter.
Qed.

Lemma unique_load_item d item :
  unique_keys d -> unique_keys (load_item d item).
Proof.
  intro H. unfold load_item. apply unique_fold.
  - intros. now apply unique_put_translation.
  - now apply unique_put_song.
Qed.

Lemma reachable_unique d : reachable d -> unique_keys d.
Proof.
  induction 1 as [|file d _ IH|lang d _ IH|sn lang d _ IH|song d _ IH
                  |sn song d _ IH|sn d _ IH].
  - split; constructor.
  - destruct file as [data|]; [|exact IH].
    rewrite load_initial_data_run. simpl.
    apply unique_fold; auto. apply unique_load_item.
  - now rewrite get_songs_run.
  - now rewrite get_song_store.
  - rewrite create_song_run.
    destruct (has_song (song_number song) d) eqn:E; [exact IH|].
    destruct (insert_all _ _ _) eqn:I; [|exact IH].
    simpl. eapply unique_insert_all; [|exact I].
    now apply unique_with_song.
  - destruct (has_song sn d) eqn:E.
    + rewrite update_song_run by exact E. simpl. now apply unique_patched.
    + now rewrite update_song_missing.
  - rewrite delete_song_run. simpl. now apply unique_without_song.
Qed.

(** ** DELETE and the translations of the deleted song *)

(** The [ON DELETE CASCADE] clause does its work on a connection that
    has the pragma on: no translation row of the song survives. *)
Lemma delete_cascades_with_foreign_keys sn d d' :
  delete_from_songs sn true d = Changed d' ->
  has_song sn d' = false /\
  filter (translation_of sn) (tbl_translations d') = [].
Proof.
  intro H. inversion H; subst; clear H. split.
  - unfold has_song. simpl.
    induction (tbl_songs d) as [|r l IH]; simpl; auto.
    destruct (song_is sn r) eqn:E; simpl; auto. now rewrite E.
  - simpl. induction (tbl_translations d) as [|r l IH]; simpl; auto.
    destruct (translation_of sn r) eqn:E; simpl; auto. now rewrite E.
Qed.

(** The handler's connection has it off: the song row goes, the
    [translations] table is not touched. *)
Lemma delete_song_store sn d :
  has_song sn (snd (delete_song sn d)) = false /\
  tbl_translations (snd (delete_song sn d)) = tbl_translations d.
Proof.
  rewrite delete_song_run. simpl. split; auto.
  unfold has_song. simpl.
  induction (tbl_songs d) as [|r l IH]; simpl; auto.
  destruct (song_is sn r) eqn:E; simpl; auto. now rewrite E.
Qed.

Lemma db_S1_deleted_reachable : reachable db_S1_deleted.
Proof. apply reach_delete, reach_create, reach_init. Qed.

(** C1: after [DELETE /songs/S] the song row and every translation row
    of [S] should be gone.  On the store with song ["S1"] and its ["en"]
    translation the song row is removed and later reads do not find
    ["S1"], but the translation row is still in the table. *)
Theorem C1_delete_song_leaves_translation_rows :
  db_S1 = mkDatabase [mk_songs_row "S1" "t" "x"]
                     [mk_translations_row "S1" "en" "a" "b"] /\
  delete_song "S1" db_S1 =
    (Returned tt, mkDatabase [] [mk_translations_row "S1" "en" "a" "b"]) /\
  get_song "S1" None db_S1_deleted =
    (Raised (HTTPException 404 "Song not found"), db_S1_deleted) /\
  fst (get_songs None db_S1_deleted) = Returned [] /\
  filter (translation_of "S1") (tbl_translations db_S1_deleted) <> [].
Proof.
  repeat split; try reflexivity. discriminate.
Qed.

(** C10: there is a reachable state where song [S] is absent while
    translation rows of [S] remain; creating [S] there with no
    translations and reading it back shows the leftover rows.  The
    state is the one after [POST] of ["S1"] with its ["en"] translation
    and [DELETE] of ["S1"]: the row [("S1", "en", "a", "b")] is left,
    and the re-created song comes back with the translation
    [("en", "a", "b")] that its payload did not have. *)
Theorem C10_recreated_song_shows_leftover_translations :
  exists (S : string) (d : Database) (created : Song),
    reachable d /\
    has_song S d = false /\
    tbl_translations d = [mk_translations_row S "en" "a" "b"] /\
    song_number created = S /\
    translations created = [] /\
    create_song created d =
      (Returned created,
       mkDatabase [mk_songs_row S (title_ta created) (text_ta created)]
                  [mk_translations_row S "en" "a" "b"]) /\
    get_song S None (snd (create_song created d)) =
      (Returned (mkSong S (title_ta created) (text_ta created)
                   [mkTranslation "en" "a" "b"]),
       snd (create_song created d)).
Proof.
  exists "S1", db_S1_deleted, (mkSong "S1" "t2" "x2" []).
  split; [apply db_S1_deleted_reachable|].
  repeat split.
Qed.

(** ** POST *)

(** C2, as the specification has it: some create request gets its song
    row in, fails on a translation, and leaves the song row in the
    store.  No request does: the failing insert raises before
    [db.commit()] is reached. *)
Lemma C2_no_request_leaves_partial_state :
  ~ exists (song : Song) (d : Database),
      has_song (song_number song) d = false /\
      fst (create_song song d) = Raised IntegrityError /\
      has_song (song_number song) (snd (create_song song d)) = true.
Proof.
  intros (song & d & Habsent & Hraised & Hleft).
  rewrite create_song_run in Hraised, Hleft. rewrite Habsent in Hraised, Hleft.
  destruct (insert_all _ _ _); simpl in *; congruence.
Qed.

(** C2, amended: when the song insert succeeds and the request still
    fails, the failure is the uncaught [IntegrityError] of a
    translation insert, nothing was committed, and the store is what it
    was before the request. *)
Theorem C2_failed_create_leaves_store_unchanged (song : Song) (d : Database)
    (e : Exception) :
  has_song (song_number song) d = false ->
  fst (create_song song d) = Raised e ->
  e = IntegrityError /\ snd (create_song song d) = d.
Proof.
  intros Habsent Hraised.
  rewrite create_song_run in *. rewrite Habsent in *.
  destruct (insert_all _ _ _); simpl in *; [discriminate|].
  split; congruence.
Qed.

Lemma C2_failed_create_witness :
  create_song song_two_en fresh_db = (Raised IntegrityError, fresh_db) /\
  IntegrityError = IntegrityError /\
  snd (create_song song_two_en fresh_db) = fresh_db.
Proof.
  split; [reflexivity|].
  apply (C2_failed_create_leaves_store_unchanged song_two_en fresh_db IntegrityError);
    reflexivity.
Defined.

(** C6: if [song_number] is already in the store, [POST /songs] fails
    with HTTP 400 and the store, so also the existing row, is as
    before. *)
Theorem C6_create_existing_song_conflict (song : Song) (d : Database) :
  has_song (song_number song) d = true ->
  create_song song d = (Raised (HTTPException 400 "Song already exists"), d).
Proof.
  intro H. rewrite create_song_run. now rewrite H.
Qed.

Lemma C6_create_existing_song_witness :
  has_song "S1" db_S1 = true /\
  create_song (mkSong "S1" "other" "other" []) db_S1 =
    (Raised (HTTPException 400 "Song already exists"), db_S1).
Proof.
  split; [reflexivity|].
  apply (C6_create_existing_song_conflict (mkSong "S1" "other" "other" []) db_S1).
  reflexivity.
Defined.

(** ** Unknown song numbers *)

(** C5: for a [song_number] that is not in the store, [GET] and [PATCH]
    both fail with HTTP 404, and [PATCH] leaves the store as it was. *)
Theorem C5_unknown_song_not_found (sn : string) (language : option string)
    (song : SongUpdate.t) (d : Database) :
  has_song sn d = false ->
  get_song sn language d = (Raised (HTTPException 404 "Song not found"), d) /\
  update_song sn song d = (Raised (HTTPException 404 "Song not found"), d).
Proof.
  intro H. split.
  - now apply get_song_missing.
  - now apply update_song_missing.
Qed.

Lemma C5_unknown_song_witness :
  has_song "ZZZ" db_S1 = false /\
  get_song "ZZZ" None db_S1 =
    (Raised (HTTPException 404 "Song not found"), db_S1) /\
  update_song "ZZZ" (SongUpdate.mk (Some "new") None None) db_S1 =
    (Raised (HTTPException 404 "Song not found"), db_S1).
Proof.
  split; [reflexivity|].
  apply (C5_unknown_song_not_found "ZZZ" None
           (SongUpdate.mk (Some "new") None None) db_S1).
  reflexivity.
Defined.

(** ** PATCH: what it writes *)

Lemma patch_columns_translations sn song d :
  tbl_translations (patch_columns sn song d) = tbl_translations d.
Proof.
  unfold patch_columns.
  now destruct (truthy (SongUpdate.title_ta song) || truthy (SongUpdate.text_ta song)).
Qed.

Lemma patch_columns_songs sn song d :
  tbl_songs (patch_columns sn song d) = map (patch_row sn song) (tbl_songs d).
Proof.
  unfold patch_columns, patch_row, new_value, set_clause.
  destruct song as [[ti|] [te|] trs]; simpl;
    try destruct (ti =? "") eqn:Eti; try destruct (te =? "") eqn:Ete; simpl;
    try (apply map_ext; intro r; destruct (song_is sn r); reflexivity);
    try (rewrite <- (map_id (tbl_songs d)) at 1; apply map_ext; intro r;
         destruct (song_is sn r); [now destruct r | reflexivity]).
Qed.

Lemma upserts_songs sn ts : forall d,
  tbl_songs (fold_left (upsert_translation sn) ts d) = tbl_songs d.
Proof.
  induction ts as [|t ts IH]; intro d; simpl; auto.
  rewrite IH. unfold upsert_translation.
  now destruct (has_translation sn (language t) d).
Qed.

Lemma patched_songs sn song d :
  tbl_songs (patched sn song d) = map (patch_row sn song) (tbl_songs d).
Proof.
  unfold patched, patch_translations.
  destruct (SongUpdate.translations song).
  - rewrite upserts_songs. apply patch_columns_songs.
  - apply patch_columns_songs.
Qed.

Lemma patch_row_song_is sn song key r :
  song_is key (patch_row sn song r) = song_is key r.
Proof. unfold patch_row. now destruct (song_is sn r). Qed.

Lemma filter_map_patch_row sn song key l :
  filter (song_is key) (map (patch_row sn song) l) =
  map (patch_row sn song) (filter (song_is key) l).
Proof.
  induction l as [|r l IH]; simpl; auto.
  rewrite patch_row_song_is. destruct (song_is key r); simpl; now rewrite IH.
Qed.

(** The response of a [PATCH] on an existing song: the patched row of
    the song with the translations the patched store holds for it. *)
Lemma update_song_found sn song d r rest :
  filter (song_is sn) (tbl_songs d) = r :: rest ->
  update_song sn song d =
  (Returned (shown_song None (patched sn song d) (patch_row sn song r)),
   patched sn song d).
Proof.
  intro Hf.
  assert (H : has_song sn d = true).
  { destruct (has_song sn d) eqn:E; auto.
    rewrite (filter_song_is_nil _ _ E) in Hf. discriminate. }
  rewrite (update_song_run _ _ _ H).
  erewrite get_song_found; [reflexivity|].
  rewrite patched_songs, filter_map_patch_row, Hf. reflexivity.
Qed.

(** C8: a [PATCH] with [title_ta] (or [text_ta]) set to the empty string
    does what the same request without that field does, and the column
    keeps its value in the store and in the returned [Song]. *)
Theorem C8_empty_string_field_is_skipped (sn : string) (d : Database)
    (r : songs_row) (rest : list songs_row)
    (other : option string) (trs : option (list Translation)) :
  filter (song_is sn) (tbl_songs d) = r :: rest ->
  (update_song sn (SongUpdate.mk (Some "") other trs) d =
     update_song sn (SongUpdate.mk None other trs) d /\
   map s_title_ta (tbl_songs (snd (update_song sn (SongUpdate.mk (Some "") other trs) d)))
     = map s_title_ta (tbl_songs d) /\
   exists s, fst (update_song sn (SongUpdate.mk (Some "") other trs) d) = Returned s /\
             title_ta s = s_title_ta r) /\
  (update_song sn (SongUpdate.mk other (Some "") trs) d =
     update_song sn (SongUpdate.mk other None trs) d /\
   map s_text_ta (tbl_songs (snd (update_song sn (SongUpdate.mk other (Some "") trs) d)))
     = map s_text_ta (tbl_songs d) /\
   exists s, fst (update_song sn (SongUpdate.mk other (Some "") trs) d) = Returned s /\
             text_ta s = s_text_ta r).
Proof.
  intro Hf. split.
  - split; [|split].
    + rewrite !(update_song_found _ _ _ _ _ Hf). reflexivity.
    + rewrite (update_song_found _ _ _ _ _ Hf). simpl.
      rewrite patched_songs, map_map. apply map_ext.
      intro x. unfold patch_row. now destruct (song_is sn x).
    + rewrite (update_song_found _ _ _ _ _ Hf). simpl. eexists. split; [reflexivity|].
      simpl. unfold patch_row. now destruct (song_is sn r).
  - split; [|split].
    + rewrite !(update_song_found _ _ _ _ _ Hf).
      unfold patched, patch_columns, patch_row, set_clause, new_value. simpl.
      destruct other as [ti|]; simpl; try destruct (ti =? ""); reflexivity.
    + rewrite (update_song_found _ _ _ _ _ Hf). simpl.
      rewrite patched_songs, map_map. apply map_ext.
      intro x. unfold patch_row. now destruct (song_is sn x).
    + rewrite (update_song_found _ _ _ _ _ Hf). simpl. eexists. split; [reflexivity|].
      simpl. unfold patch_row. now destruct (song_is sn r).
Qed.

Lemma C8_empty_string_witness :
  let d := db_S1 in
  let r := mk_songs_row "S1" "t" "x" in
  filter (song_is "S1") (tbl_songs d) = [r] /\
  update_song "S1" (SongUpdate.mk (Some "") (Some "new") None) d =
    update_song "S1" (SongUpdate.mk None (Some "new") None) d /\
  update_song "S1" (SongUpdate.mk (Some "new") (Some "") None) d =
    update_song "S1" (SongUpdate.mk (Some "new") None None) d.
Proof.
  split; [reflexivity|].
  pose proof (C8_empty_string_field_is_skipped "S1" db_S1
                (mk_songs_row "S1" "t" "x") [] (Some "new") None eq_refl) as H.
  split; apply H.
Defined.

(** ** GET /songs *)

Lemma filter_translation_is sn lang l :
  filter (translation_is sn lang) l =
  filter (fun r => t_language r =? lang) (filter (translation_of sn) l).
Proof.
  unfold translation_is, translation_of.
  induction l as [|r l IH]; simpl; auto.
  destruct (t_song_number r =? sn); simpl; auto.
  destruct (t_language r =? lang); now rewrite IH.
Qed.

(** Index order and one language: picking the rows of a language out
    of the ordered rows gives them as they lie in the table. *)
Lemma leb_same s : String.leb s s = true.
Proof. now destruct (String.leb_total s s). Qed.

Lemma filter_language_insert X r l :
  filter (fun x => t_language x =? X) (insert_by_language r l) =
  filter (fun x => t_language x =? X) (r :: l).
Proof.
  induction l as [|y l IH]; [reflexivity|].
  cbn [insert_by_language].
  destruct (String.leb (t_language r) (t_language y)) eqn:E; [reflexivity|].
  cbn [filter] in *. rewrite IH.
  destruct (t_language r =? X) eqn:Er; [|reflexivity].
  destruct (t_language y =? X) eqn:Ey; [|reflexivity].
  apply String.eqb_eq in Er, Ey. rewrite Er, Ey, leb_same in E. discriminate.
Qed.

Lemma filter_language_index_order X l :
  filter (fun x => t_language x =? X) (index_order l) =
  filter (fun x => t_language x =? X) l.
Proof.
  induction l as [|r l IH]; [reflexivity|].
  cbn [index_order]. rewrite filter_language_insert. cbn [filter].
  now rewrite IH.
Qed.

Lemma filter_map_row_Translation X l :
  filter (fun t => language t =? X) (map row_Translation l) =
  map row_Translation (filter (fun x => t_language x =? X) l).
Proof.
  induction l as [|r l IH]; simpl; auto.
  destruct (t_language r =? X); simpl; now rewrite IH.
Qed.

Lemma translations_in_filter X sn d :
  translations_in X sn d =
  filter (fun t => language t =? X) (all_translations sn d).
Proof.
  unfold translations_in, all_translations.
  now rewrite filter_map_row_Translation, filter_language_index_order,
    filter_translation_is.
Qed.

Lemma filter_absent_key sn lang l :
  ~ In (sn, lang) (map translation_key l) ->
  filter (translation_is sn lang) l = [].
Proof.
  induction l as [|r l IH]; simpl; auto. intro H.
  destruct (translation_is sn lang r) eqn:E.
  - exfalso. apply H. left. unfold translation_is in E.
    apply andb_true_iff in E as [A B]. apply String.eqb_eq in A, B.
    unfold translation_key. now subst.
  - apply IH. intro Hin. apply H. now right.
Qed.

Lemma at_most_one_row sn lang l :
  NoDup (map translation_key l) ->
  length (filter (translation_is sn lang) l) <= 1.
Proof.
  induction l as [|r l IH]; simpl; auto. intro H.
  inversion H as [|? ? Hn Hl]; subst.
  destruct (translation_is sn lang r) eqn:E; auto.
  simpl. rewrite filter_absent_key; auto.
  unfold translation_is in E.
  apply andb_true_iff in E as [A B]. apply String.eqb_eq in A, B.
  unfold translation_key in Hn. now subst.
Qed.

(** C4, as the specification has it, at [X = ""]: [GET /songs?language=]
    should cut every translation list down to the rows whose language
    is empty.  It returns the lists whole. *)
Lemma C4_empty_language_is_not_filtered :
  songs_filtered_to "" db_S1 = [mkSong "S1" "t" "x" []] /\
  fst (get_songs (Some "") db_S1) =
    Returned [mkSong "S1" "t" "x" [mkTranslation "en" "a" "b"]] /\
  fst (get_songs (Some "") db_S1) <> Returned (songs_filtered_to "" db_S1).
Proof.
  repeat split. discriminate.
Qed.

(** C4, amended: for a non-empty [X], [GET /songs?language=X] returns
    every song with its translations filtered to the rows of language
    [X], at most one per song in a store that meets the schema's
    [UNIQUE] constraint; without the parameter, or with an empty one,
    it returns every song with all of its translations, which come
    ordered by language. *)
Theorem C4_get_songs_language_filter (X : string) (d : Database) :
  X <> "" ->
  unique_keys d ->
  get_songs (Some X) d = (Returned (songs_filtered_to X d), d) /\
  (forall s, In s (songs_filtered_to X d) -> length (translations s) <= 1) /\
  get_songs None d = (Returned (songs_with_all d), d) /\
  get_songs (Some "") d = (Returned (songs_with_all d), d).
Proof.
  intros HX [_ Hu]. apply String.eqb_neq in HX.
  repeat split.
  - rewrite get_songs_run. unfold songs_filtered_to, shown_song, shown_translations.
    simpl. rewrite HX. simpl. do 2 f_equal. apply map_ext. intro r.
    now rewrite translations_in_filter.
  - intros s Hs. unfold songs_filtered_to in Hs.
    apply in_map_iff in Hs as (r & <- & _). simpl.
    rewrite <- translations_in_filter. unfold translations_in.
    rewrite length_map. now apply at_most_one_row.
  - now rewrite get_songs_run.
  - now rewrite get_songs_run.
Qed.

Lemma C4_get_songs_language_filter_witness :
  "en" <> "" /\ unique_keys db_fr_en /\
  tbl_translations db_fr_en =
    [mk_translations_row "S1" "fr" "c" "d"; mk_translations_row "S1" "en" "a" "b"] /\
  get_songs (Some "en") db_fr_en =
    (Returned [mkSong "S1" "t" "x" [mkTranslation "en" "a" "b"]], db_fr_en) /\
  get_songs None db_fr_en =
    (Returned [mkSong "S1" "t" "x"
                 [mkTranslation "en" "a" "b"; mkTranslation "fr" "c" "d"]],
     db_fr_en) /\
  get_songs (Some "de") db_fr_en = (Returned [mkSong "S1" "t" "x" []], db_fr_en).
Proof.
  assert (Hne : "en" <> "") by discriminate.
  assert (Hnd : "de" <> "") by discriminate.
  assert (Hu : unique_keys db_fr_en).
  { split; simpl.
    - repeat constructor. intros [].
    - constructor; [intros [H|[]]; discriminate | repeat constructor; intros []]. }
  split; [exact Hne|]. split; [exact Hu|]. split; [reflexivity|].
  split; [|split].
  - apply (C4_get_songs_language_filter "en" db_fr_en Hne Hu).
  - apply (C4_get_songs_language_filter "en" db_fr_en Hne Hu).
  - apply (C4_get_songs_language_filter "de" db_fr_en Hnd Hu).
Defined.

(** ** PATCH: what it leaves alone *)

Lemma filter_map_fixed {A} (p : A -> bool) (f : A -> A) l :
  (forall x, p (f x) = p x) ->
  (forall x, p x = true -> f x = x) ->
  filter p (map f l) = filter p l.
Proof.
  intros Hp Hf. induction l as [|x l IH]; simpl; auto.
  rewrite Hp. destruct (p x) eqn:E; rewrite IH; auto.
  now rewrite Hf.
Qed.

Lemma filter_snoc_out {A} (p : A -> bool) l x :
  p x = false -> filter p (l ++ [x]) = filter p l.
Proof.
  intro H. rewrite filter_app. simpl. rewrite H. apply app_nil_r.
Qed.

Lemma upsert_keeps_unmentioned sn song ts t d :
  SongUpdate.translations song = Some ts -> In t ts ->
  filter (unmentioned sn song) (tbl_translations (upsert_translation sn d t)) =
  filter (unmentioned sn song) (tbl_translations d).
Proof.
  intros Hts Hin.
  assert (Hm : forall r, translation_is sn (language t) r = true ->
                         unmentioned sn song r = false).
  { intros r Hr. unfold unmentioned, mentioned, translation_of.
    unfold translation_is in Hr. apply andb_true_iff in Hr as [A B].
    rewrite A, Hts. simpl. apply negb_false_iff, existsb_exists.
    exists t. split; auto. apply String.eqb_eq in B.
    now rewrite B, String.eqb_refl. }
  unfold upsert_translation.
  destruct (has_translation sn (language t) d); simpl.
  - apply filter_map_fixed; intro r; unfold set_title_text;
      destruct (translation_is sn (language t) r) eqn:E; auto.
    intro Hu. rewrite (Hm r E) in Hu. discriminate.
  - apply filter_snoc_out. apply Hm. unfold translation_is. simpl.
    now rewrite !String.eqb_refl.
Qed.

Lemma upserts_keep_unmentioned sn song ts us :
  SongUpdate.translations song = Some ts -> incl us ts ->
  forall d,
  filter (unmentioned sn song) (tbl_translations (fold_left (upsert_translation sn) us d)) =
  filter (unmentioned sn song) (tbl_translations d).
Proof.
  intros Hts. induction us as [|t us IH]; intros Hincl d; simpl; auto.
  rewrite IH.
  - apply (upsert_keeps_unmentioned sn song ts); auto. apply Hincl. now left.
  - intros x Hx. apply Hincl. now right.
Qed.

Lemma patched_keeps_unmentioned sn song d :
  filter (unmentioned sn song) (tbl_translations (patched sn song d)) =
  filter (unmentioned sn song) (tbl_translations d).
Proof.
  unfold patched, patch_translations.
  destruct (SongUpdate.translations song) as [ts|] eqn:E.
  - rewrite (upserts_keep_unmentioned sn song ts ts E (incl_refl ts)).
    now rewrite patch_columns_translations.
  - now rewrite patch_columns_translations.
Qed.

(** C7, as the specification has it, at [text_ta = ""]: a [PATCH] whose
    body holds only [text_ta] should write it.  With the empty string
    nothing is written and the song keeps its text. *)
Lemma C7_empty_text_ta_is_not_written :
  has_song "S1" db_S1 = true /\
  ~ (exists s,
       fst (update_song "S1" (SongUpdate.mk None (Some "") None) db_S1) = Returned s /\
       text_ta s = "") /\
  ~ (exists r,
       In r (tbl_songs
               (snd (update_song "S1" (SongUpdate.mk None (Some "") None) db_S1))) /\
       s_song_number r = "S1" /\ s_text_ta r = "").
Proof.
  split; [reflexivity|]. split.
  - intros (s & Hs & Ht). inversion Hs; subst. discriminate.
  - intros (r & [<-|[]] & _ & Ht). discriminate.
Qed.

(** C7, amended: for an existing song, a [PATCH] whose body holds only a
    non-empty [text_ta] sets [text_ta] to it and leaves [title_ta] and
    the whole [translations] table as they were (the response lists the
    song's translations as [GET] does, by language); and after any [PATCH]
    the translation rows that the body does not mention are the ones
    that were there before. *)
Theorem C7_patch_frame (sn : string) (d : Database)
    (r : songs_row) (rest : list songs_row) :
  filter (song_is sn) (tbl_songs d) = r :: rest ->
  (forall v, v <> "" ->
     update_song sn (SongUpdate.mk None (Some v) None) d =
     (Returned (mkSong sn (s_title_ta r) v (all_translations sn d)),
      mkDatabase
        (map (fun x => if song_is sn x
                       then mk_songs_row (s_song_number x) (s_title_ta x) v
                       else x) (tbl_songs d))
        (tbl_translations d))) /\
  (forall song,
     filter (unmentioned sn song)
            (tbl_translations (snd (update_song sn song d))) =
     filter (unmentioned sn song) (tbl_translations d)).
Proof.
  intro Hf.
  assert (Hr : song_is sn r = true).
  { assert (In r (filter (song_is sn) (tbl_songs d))) as Hin
        by (rewrite Hf; now left).
    now apply filter_In in Hin. }
  split.
  - intros v Hv. apply String.eqb_neq in Hv.
    rewrite (update_song_found _ _ _ _ _ Hf).
    assert (Hp : patched sn (SongUpdate.mk None (Some v) None) d =
                 mkDatabase
                   (map (fun x => if song_is sn x
                                  then mk_songs_row (s_song_number x) (s_title_ta x) v
                                  else x) (tbl_songs d))
                   (tbl_translations d)).
    { unfold patched, patch_translations, patch_columns, set_clause. simpl.
      rewrite Hv. reflexivity. }
    rewrite Hp. f_equal. f_equal.
    unfold shown_song, shown_translations, patch_row, new_value, all_translations.
    simpl. rewrite Hr, Hv. simpl.
    unfold song_is in Hr. apply String.eqb_eq in Hr. now rewrite Hr.
  - intro song. rewrite (update_song_found _ _ _ _ _ Hf). simpl.
    apply patched_keeps_unmentioned.
Qed.

Lemma C7_patch_frame_witness :
  filter (song_is "S1") (tbl_songs db_fr_en) = [mk_songs_row "S1" "t" "x"] /\
  "new text" <> "" /\
  update_song "S1" (SongUpdate.mk None (Some "new text") None) db_fr_en =
    (Returned (mkSong "S1" "t" "new text"
                 [mkTranslation "en" "a" "b"; mkTranslation "fr" "c" "d"]),
     mkDatabase [mk_songs_row "S1" "t" "new text"]
                [mk_translations_row "S1" "fr" "c" "d";
                 mk_translations_row "S1" "en" "a" "b"]).
Proof.
  split; [reflexivity|].
  assert (Hv : "new text" <> "") by discriminate.
  split; [exact Hv|].
  exact (proj1 (C7_patch_frame "S1" db_fr_en (mk_songs_row "S1" "t" "x") [] eq_refl)
           "new text" Hv).
Defined.

(** ** One translation row per (song, language) *)

Lemma find_app_or {A} (f : A -> bool) l1 l2 :
  find f (l1 ++ l2) =
  match find f l1 with
  | Some x => Some x
  | None => find f l2
  end.
Proof.
  induction l1 as [|x l1 IH]; simpl; auto. now destruct (f x).
Qed.

Lemma set_title_text_is sn lang ti te key_sn key_lang r :
  translation_is key_sn key_lang (set_title_text sn lang ti te r) =
  translation_is key_sn key_lang r.
Proof. unfold set_title_text. now destruct (translation_is sn lang r). Qed.

Lemma translation_is_key sn lang r :
  translation_is sn lang r = true -> translation_key r = (sn, lang).
Proof.
  unfold translation_is, translation_key. intro H.
  apply andb_true_iff in H as [A B]. apply String.eqb_eq in A, B. now subst.
Qed.

Lemma filter_set_present sn lang ti te l :
  NoDup (map translation_key l) ->
  In (sn, lang) (map translation_key l) ->
  filter (translation_is sn lang) (map (set_title_text sn lang ti te) l) =
  [mk_translations_row sn lang ti te].
Proof.
  induction l as [|r l IH]; simpl; [intros _ []|].
  intros Hn Hin. inversion Hn as [|? ? Hr Hl]; subst.
  rewrite set_title_text_is.
  destruct (translation_is sn lang r) eqn:E.
  - pose proof (translation_is_key _ _ _ E) as K. rewrite K in Hr.
    unfold set_title_text at 1. rewrite E.
    unfold translation_key in K. inversion K as [[K1 K2]].
    rewrite K1, K2. f_equal.
    apply filter_absent_key. rewrite map_map.
    rewrite (map_ext _ translation_key); auto.
    intro. apply set_title_text_key.
  - apply IH; auto. destruct Hin as [Hin|Hin]; auto.
    exfalso. unfold translation_is, translation_key in *.
    inversion Hin as [[K1 K2]]. rewrite K1, K2, !String.eqb_refl in E.
    discriminate.
Qed.

Lemma key_rows_after_upsert sn lang d t :
  unique_keys d ->
  filter (translation_is sn lang) (tbl_translations (upsert_translation sn d t)) =
  if language t =? lang
  then [mk_translations_row sn lang (title t) (text t)]
  else filter (translation_is sn lang) (tbl_translations d).
Proof.
  intros [_ Hu]. unfold upsert_translation.
  destruct (language t =? lang) eqn:El.
  - apply String.eqb_eq in El. subst lang.
    destruct (has_translation sn (language t) d) eqn:Eh; simpl.
    + apply filter_set_present; auto. now apply has_translation_In.
    + rewrite filter_app. rewrite filter_absent_key.
      * simpl. unfold translation_is. simpl. now rewrite !String.eqb_refl.
      * intro Hin. apply has_translation_In in Hin. congruence.
  - destruct (has_translation sn (language t) d) eqn:Eh; simpl.
    + apply filter_map_fixed; intro r.
      * apply set_title_text_is.
      * intro Hr. unfold set_title_text.
        destruct (translation_is sn (language t) r) eqn:E; auto.
        exfalso. unfold translation_is in Hr, E.
        apply andb_true_iff in Hr as [_ B]. apply andb_true_iff in E as [_ B'].
        apply String.eqb_eq in B, B'. rewrite <- B, <- B' in El.
        rewrite String.eqb_refl in El. discriminate.
    + apply filter_snoc_out. unfold translation_is. simpl.
      rewrite El. apply andb_false_r.
Qed.

Lemma key_rows_after_upserts sn lang ts : forall d,
  unique_keys d ->
  filter (translation_is sn lang)
         (tbl_translations (fold_left (upsert_translation sn) ts d)) =
  match last_for lang ts with
  | Some t => [mk_translations_row sn lang (title t) (text t)]
  | None => filter (translation_is sn lang) (tbl_translations d)
  end.
Proof.
  induction ts as [|t ts IH]; intros d Hu; simpl; auto.
  rewrite IH by now apply unique_upsert_translation.
  unfold last_for. simpl. rewrite find_app_or.
  fold (last_for lang ts). destruct (last_for lang ts); auto.
  simpl. rewrite key_rows_after_upsert by exact Hu.
  now destruct (language t =? lang).
Qed.

Lemma has_translation_after_upsert sn lang d t :
  has_translation sn (language t) d = true ->
  has_translation sn lang (upsert_translation sn d t) = has_translation sn lang d.
Proof.
  intro H. unfold upsert_translation. rewrite H.
  unfold has_translation. simpl.
  induction (tbl_translations d) as [|r l IH]; simpl; auto.
  now rewrite set_title_text_is, IH.
Qed.

Lemma upserts_length sn ts : forall d,
  (forall t, In t ts -> has_translation sn (language t) d = true) ->
  length (tbl_translations (fold_left (upsert_translation sn) ts d)) =
  length (tbl_translations d).
Proof.
  induction ts as [|t ts IH]; intros d H; simpl; auto.
  assert (Ht : has_translation sn (language t) d = true) by (apply H; now left).
  rewrite IH.
  - unfold upsert_translation. rewrite Ht. simpl. apply length_map.
  - intros x Hx. rewrite has_translation_after_upsert by exact Ht.
    apply H. now right.
Qed.

(** C3: in every reachable state there is at most one translation row
    per (song_number, language) pair; and a [PATCH] of an existing song
    leaves, for every language of its body, exactly one row, carrying
    the title and text of the body's last entry for that language.
    When all the body's languages were present already, the table has
    as many rows as before. *)
Theorem C3_one_translation_per_pair (d : Database) :
  reachable d ->
  (forall sn lang,
     length (filter (translation_is sn lang) (tbl_translations d)) <= 1) /\
  NoDup (map translation_key (tbl_translations d)) /\
  forall sn song ts,
    has_song sn d = true ->
    SongUpdate.translations song = Some ts ->
    (forall lang t,
       last_for lang ts = Some t ->
       filter (translation_is sn lang)
              (tbl_translations (snd (update_song sn song d))) =
       [mk_translations_row sn lang (title t) (text t)]) /\
    ((forall t, In t ts -> has_translation sn (language t) d = true) ->
     length (tbl_translations (snd (update_song sn song d))) =
     length (tbl_translations d)).
Proof.
  intro Hr. pose proof (reachable_unique d Hr) as Hu.
  split; [|split].
  - intros sn lang. apply at_most_one_row, Hu.
  - apply Hu.
  - intros sn song ts Hs Hts.
    rewrite (update_song_run _ _ _ Hs). simpl.
    unfold patched, patch_translations. rewrite Hts. split.
    + intros lang t Hl.
      rewrite key_rows_after_upserts by now apply unique_patch_columns.
      now rewrite Hl.
    + intro Hall. rewrite upserts_length.
      * now rewrite patch_columns_translations.
      * intros t Ht. unfold has_translation.
        rewrite patch_columns_translations. now apply Hall.
Qed.

Lemma C3_one_translation_per_pair_witness :
  reachable db_S1 /\
  filter (translation_is "S1" "en")
    (tbl_translations
       (snd (update_song "S1"
               (SongUpdate.mk None None (Some [mkTranslation "en" "A" "B"]))
               db_S1))) =
  [mk_translations_row "S1" "en" "A" "B"].
Proof.
  assert (Hr : reachable db_S1) by apply reach_create, reach_init.
  split; [exact Hr|].
  destruct (C3_one_translation_per_pair db_S1 Hr) as (_ & _ & H).
  destruct (H "S1" (SongUpdate.mk None None (Some [mkTranslation "en" "A" "B"]))
              [mkTranslation "en" "A" "B"] eq_refl eq_refl) as [H1 _].
  exact (H1 "en" (mkTranslation "en" "A" "B") eq_refl).
Defined.

(** ** Bootstrap loader *)

Lemma load_item_flat d item : load_item d item = fold_left put (seed_rows item) d.
Proof.
  unfold load_item, seed_rows. simpl.
  generalize (put_song (seed_song_number item) (seed_title_ta item)
                (seed_text_ta item) d).
  induction (get_translations item) as [|t ts IH]; intro d0; simpl; auto.
Qed.

Lemma load_flat data : forall d,
  fold_left load_item data d = fold_left put (flat_map seed_rows data) d.
Proof.
  induction data as [|item data IH]; intro d; auto.
  cbn [fold_left flat_map]. rewrite fold_left_app, IH. now rewrite load_item_flat.
Qed.

Lemma put_present r d : present r d = true -> put d r = d.
Proof.
  destruct r as [sn ti te|sn t]; simpl; intro H.
  - unfold put_song. now rewrite H.
  - unfold put_translation. now rewrite H.
Qed.

Lemma present_put_self r d : present r (put d r) = true.
Proof.
  destruct r as [sn ti te|sn t]; simpl.
  - unfold put_song. destruct (has_song sn d) eqn:E; auto.
    unfold has_song, song_is. simpl. rewrite existsb_app. simpl.
    rewrite String.eqb_refl. apply orb_true_iff. right. reflexivity.
  - unfold put_translation. destruct (has_translation sn (language t) d) eqn:E; auto.
    unfold has_translation, translation_is. simpl. rewrite existsb_app. simpl.
    rewrite !String.eqb_refl. apply orb_true_iff. right. reflexivity.
Qed.

Lemma put_extends d r : extends d (put d r).
Proof.
  destruct r as [sn ti te|sn t]; simpl.
  - unfold put_song. destruct (has_song sn d).
    + exists [], []. now rewrite !app_nil_r.
    + exists [mk_songs_row sn ti te], []. simpl.
      split; [reflexivity | now rewrite app_nil_r].
  - unfold put_translation. destruct (has_translation sn (language t) d).
    + exists [], []. now rewrite !app_nil_r.
    + exists [], [mk_translations_row sn (language t) (title t) (text t)]. simpl.
      split; [now rewrite app_nil_r | reflexivity].
Qed.

Lemma extends_refl d : extends d d.
Proof. exists [], []. now rewrite !app_nil_r. Qed.

Lemma extends_trans d1 d2 d3 : extends d1 d2 -> extends d2 d3 -> extends d1 d3.
Proof.
  intros (s & t & Hs & Ht) (s' & t' & Hs' & Ht').
  exists (s ++ s'), (t ++ t'). rewrite Hs', Ht', Hs, Ht.
  now rewrite !app_assoc.
Qed.

Lemma present_extends r d d' : extends d d' -> present r d = true -> present r d' = true.
Proof.
  intros (s & t & Hs & Ht). destruct r as [sn ti te|sn t0]; simpl.
  - unfold has_song. rewrite Hs, existsb_app. intros ->. reflexivity.
  - unfold has_translation. rewrite Ht, existsb_app. intros ->. reflexivity.
Qed.

Lemma fold_put_extends rows : forall d, extends d (fold_left put rows d).
Proof.
  induction rows as [|r rows IH]; intro d; simpl.
  - apply extends_refl.
  - eapply extends_trans; [apply put_extends | apply IH].
Qed.

Lemma fold_put_present rows : forall d r,
  In r rows -> present r (fold_left put rows d) = true.
Proof.
  induction rows as [|r0 rows IH]; intros d r Hin; simpl; [destruct Hin|].
  destruct Hin as [->|Hin].
  - eapply present_extends; [apply fold_put_extends | apply present_put_self].
  - now apply IH.
Qed.

Lemma fold_put_fixed rows d :
  (forall r, In r rows -> present r d = true) -> fold_left put rows d = d.
Proof.
  induction rows as [|r rows IH]; intro H; simpl; auto.
  rewrite put_present by (apply H; now left).
  apply IH. intros x Hx. apply H. now right.
Qed.

(** C9: the loader always succeeds; a second run on the same seed
    changes nothing; the rows that were in the store are still there,
    unchanged and in place, with the new ones after them; no key is
    duplicated; and without a seed file the store is left as it is. *)
Theorem C9_bootstrap_idempotent (data : list seed_item) (d : Database) :
  let once := snd (load_initial_data (Some data) d) in
  fst (load_initial_data (Some data) d) = Returned tt /\
  load_initial_data (Some data) once = (Returned tt, once) /\
  extends d once /\
  (unique_keys d -> unique_keys once) /\
  load_initial_data None d = (Returned tt, d).
Proof.
  intro once. subst once. rewrite !load_initial_data_run. cbn [fst snd].
  split; [reflexivity|]. split; [|split; [|split]].
  - f_equal. rewrite !load_flat. apply fold_put_fixed.
    intros r Hr. now apply fold_put_present.
  - rewrite load_flat. apply fold_put_extends.
  - intro Hu. apply unique_fold; auto. apply unique_load_item.
  - reflexivity.
Qed.

Lemma C9_bootstrap_idempotent_witness :
  let once := snd (load_initial_data (Some seed_example) db_S1) in
  once = mkDatabase
           [mk_songs_row "S1" "t" "x"; mk_songs_row "S3" "q" "q"]
           [mk_translations_row "S1" "en" "a" "b";
            mk_translations_row "S1" "ta" "1" "2"] /\
  load_initial_data (Some seed_example) once = (Returned tt, once) /\
  unique_keys once.
Proof.
  pose proof (C9_bootstrap_idempotent seed_example db_S1) as (_ & H2 & _ & H4 & _).
  split; [reflexivity|]. split; [exact H2|].
  apply H4. split; simpl; repeat constructor; intros [].
Defined.

(** * Further properties of the handlers *)

(** ** GET /songs/{song_number} and GET /songs *)

Lemma song_is_eq sn r : song_is sn r = true -> s_song_number r = sn.
Proof. unfold song_is. apply String.eqb_eq. Qed.

Lemma filter_head_song_is sn d r rest :
  filter (song_is sn) (tbl_songs d) = r :: rest -> s_song_number r = sn.
Proof.
  intro Hf. apply song_is_eq.
  assert (In r (filter (song_is sn) (tbl_songs d))) as Hin by (rewrite Hf; now left).
  now apply filter_In in Hin.
Qed.

(** X1: for an existing song, [GET /songs/S?language=X] with a non-empty
    [X] returns the song's row with its translations cut down to the
    rows of language [X], at most one when the keys are unique; with no
    [language], or an empty one, it returns all the song's
    translations, ordered by language. *)
Theorem get_song_language_filter (sn X : string) (d : Database)
    (r : songs_row) (rest : list songs_row) :
  filter (song_is sn) (tbl_songs d) = r :: rest ->
  X <> "" ->
  get_song sn (Some X) d =
    (Returned (mkSong sn (s_title_ta r) (s_text_ta r)
                 (filter (fun t => language t =? X) (all_translations sn d))), d) /\
  get_song sn None d =
    (Returned (mkSong sn (s_title_ta r) (s_text_ta r) (all_translations sn d)), d) /\
  get_song sn (Some "") d = get_song sn None d /\
  (NoDup (map translation_key (tbl_translations d)) ->
   length (filter (fun t => language t =? X) (all_translations sn d)) <= 1).
Proof.
  intros Hf HX. pose proof (filter_head_song_is _ _ _ _ Hf) as Hsn.
  apply String.eqb_neq in HX.
  rewrite !(get_song_found _ _ _ _ _ Hf).
  unfold shown_song, shown_translations. simpl. rewrite HX, Hsn. simpl.
  rewrite translations_in_filter. repeat split.
  intro Hu. rewrite <- translations_in_filter. unfold translations_in.
  rewrite length_map. now apply at_most_one_row.
Qed.

Lemma get_song_language_filter_witness :
  get_song "S1" (Some "en") db_fr_en =
    (Returned (mkSong "S1" "t" "x" [mkTranslation "en" "a" "b"]), db_fr_en) /\
  get_song "S1" (Some "de") db_fr_en = (Returned (mkSong "S1" "t" "x" []), db_fr_en) /\
  get_song "S1" None db_fr_en =
    (Returned (mkSong "S1" "t" "x"
                 [mkTranslation "en" "a" "b"; mkTranslation "fr" "c" "d"]),
     db_fr_en).
Proof.
  assert (Hen : "en" <> "") by discriminate.
  assert (Hde : "de" <> "") by discriminate.
  split; [|split].
  - exact (proj1 (get_song_language_filter "S1" "en" db_fr_en
                    (mk_songs_row "S1" "t" "x") [] eq_refl Hen)).
  - exact (proj1 (get_song_language_filter "S1" "de" db_fr_en
                    (mk_songs_row "S1" "t" "x") [] eq_refl Hde)).
  - exact (proj1 (proj2 (get_song_language_filter "S1" "en" db_fr_en
                           (mk_songs_row "S1" "t" "x") [] eq_refl Hen))).
Defined.

Lemma filter_song_is_unique l : forall r,
  NoDup (map s_song_number l) -> In r l ->
  filter (song_is (s_song_number r)) l = [r].
Proof.
  induction l as [|x l IH]; intros r Hn Hin; [destruct Hin|].
  simpl in *. inversion Hn as [|? ? Hx Hl]; subst.
  assert (Hnone : forall sn, ~ In sn (map s_song_number l) ->
                             filter (song_is sn) l = []).
  { intros sn Hsn. clear -Hsn. induction l as [|y l IH]; simpl; auto.
    destruct (song_is sn y) eqn:E.
    - exfalso. apply Hsn. left. now apply song_is_eq.
    - apply IH. intro H. apply Hsn. now right. }
  destruct Hin as [->|Hin].
  - unfold song_is at 1. rewrite String.eqb_refl. f_equal. now apply Hnone.
  - destruct (song_is (s_song_number r) x) eqn:E.
    + exfalso. apply Hx. apply song_is_eq in E. rewrite E. now apply in_map.
    + now apply IH.
Qed.

(** X2: in a reachable state [GET /songs] returns one [Song] per row of
    [songs], in table order and with no song number twice, whatever the
    [language] parameter; and each listed [Song] is what
    [GET /songs/{song_number}] returns for it with the same parameter. *)
Theorem get_songs_agrees_with_get_song (language : option string) (d : Database) :
  reachable d ->
  exists songs,
    get_songs language d = (Returned songs, d) /\
    map song_number songs = map s_song_number (tbl_songs d) /\
    NoDup (map song_number songs) /\
    forall s, In s songs -> get_song (song_number s) language d = (Returned s, d).
Proof.
  intro Hr. destruct (reachable_unique d Hr) as [Hu _].
  exists (map (shown_song language d) (tbl_songs d)).
  assert (Hm : map song_number (map (shown_song language d) (tbl_songs d)) =
               map s_song_number (tbl_songs d)).
  { rewrite map_map. now apply map_ext. }
  split; [apply get_songs_run|]. split; [exact Hm|]. split.
  - now rewrite Hm.
  - intros s Hs. apply in_map_iff in Hs as (r & <- & Hin). simpl.
    apply (get_song_found _ _ _ _ []). now apply filter_song_is_unique.
Qed.

Lemma get_songs_agrees_with_get_song_witness :
  exists songs,
    get_songs (Some "en") db_S1 = (Returned songs, db_S1) /\
    map song_number songs = ["S1"].
Proof.
  destruct (get_songs_agrees_with_get_song (Some "en") db_S1
              (reach_create song_S1 _ reach_init)) as (songs & H1 & H2 & _).
  exists songs. split; [exact H1 | exact H2].
Defined.

(** ** POST /songs: when it succeeds, and what it stores *)

Lemma has_translation_append sn lang d row :
  has_translation sn lang
    (mkDatabase (tbl_songs d) (tbl_translations d ++ [row])) =
  has_translation sn lang d || translation_is sn lang row.
Proof.
  unfold has_translation. simpl. rewrite existsb_app. simpl.
  now rewrite orb_false_r.
Qed.

Lemma insert_all_insertable sn ts : forall d,
  insertable sn ts d ->
  insert_all sn ts d =
  Some (mkDatabase (tbl_songs d) (tbl_translations d ++ map (row_of sn) ts)).
Proof.
  induction ts as [|t ts IH]; intros d [Hn Hp]; simpl.
  - rewrite app_nil_r. now destruct d.
  - rewrite (Hp t) by now left.
    simpl in Hn. inversion Hn as [|? ? Hx Hl]; subst.
    rewrite IH.
    + simpl. now rewrite <- app_assoc.
    + split; auto. intros u Hu. rewrite has_translation_append.
      rewrite (Hp u) by now right. simpl.
      unfold translation_is. simpl. rewrite String.eqb_refl. simpl.
      apply String.eqb_neq. intro E. apply Hx. rewrite E. now apply in_map.
Qed.

Lemma insert_all_some sn ts : forall d d',
  insert_all sn ts d = Some d' -> insertable sn ts d.
Proof.
  induction ts as [|t ts IH]; intros d d' H; simpl in H.
  - split; [constructor | intros ? []].
  - destruct (has_translation sn (language t) d) eqn:E; [discriminate|].
    destruct (IH _ _ H) as [Hn Hp].
    assert (Hlater : forall u, In u ts ->
              has_translation sn (language u) d = false /\
              language t <> language u).
    { intros u Hu. specialize (Hp u Hu). rewrite has_translation_append in Hp.
      apply orb_false_iff in Hp as [Hp1 Hp2]. split; auto.
      unfold translation_is in Hp2. simpl in Hp2.
      rewrite String.eqb_refl in Hp2. simpl in Hp2.
      now apply String.eqb_neq. }
    split.
    + simpl. constructor; auto. intro Hin.
      apply in_map_iff in Hin as (u & Hu & Hin).
      destruct (Hlater u Hin) as [_ Hne]. congruence.
    + intros u [<-|Hu]; auto. now apply Hlater.
Qed.

Lemma create_song_insertable song d :
  has_song (song_number song) d = false ->
  insertable (song_number song) (translations song) d ->
  create_song song d =
  (Returned song,
   mkDatabase
     (tbl_songs d ++
        [mk_songs_row (song_number song) (title_ta song) (text_ta song)])
     (tbl_translations d ++ map (row_of (song_number song)) (translations song))).
Proof.
  intros Habsent Hi. rewrite create_song_run, Habsent.
  assert (Hi' : insertable (song_number song) (translations song) (with_song song d)).
  { destruct Hi as [Hn Hp]. split; auto. }
  now rewrite (insert_all_insertable _ _ _ Hi').
Qed.

Lemma create_song_not_insertable song d :
  has_song (song_number song) d = false ->
  ~ insertable (song_number song) (translations song) d ->
  create_song song d = (Raised IntegrityError, d).
Proof.
  intros Habsent Hni. rewrite create_song_run, Habsent.
  destruct (insert_all (song_number song) (translations song) (with_song song d))
    as [d'|] eqn:E; auto.
  exfalso. apply Hni. destruct (insert_all_some _ _ _ _ E) as [Hn Hp].
  split; auto.
Qed.

(** X3: a [POST /songs] for a song number that is not in the store
    succeeds exactly when its translations are insertable (no language
    twice in the payload, and no row left in [translations] for the
    song with one of these languages).  Then it returns the payload and
    appends the song row and one row per translation, in payload order;
    otherwise it fails with the uncaught [IntegrityError] and the store
    is as before. *)
Theorem create_song_succeeds_iff_insertable (song : Song) (d : Database) :
  has_song (song_number song) d = false ->
  (insertable (song_number song) (translations song) d ->
   create_song song d =
   (Returned song,
    mkDatabase
      (tbl_songs d ++
         [mk_songs_row (song_number song) (title_ta song) (text_ta song)])
      (tbl_translations d ++ map (row_of (song_number song)) (translations song)))) /\
  (~ insertable (song_number song) (translations song) d ->
   create_song song d = (Raised IntegrityError, d)).
Proof.
  intro Habsent. split.
  - now apply create_song_insertable.
  - now apply create_song_not_insertable.
Qed.

Lemma create_song_succeeds_iff_insertable_witness :
  create_song song_S1 fresh_db =
    (Returned song_S1,
     mkDatabase [mk_songs_row "S1" "t" "x"] [mk_translations_row "S1" "en" "a" "b"]) /\
  create_song song_two_en fresh_db = (Raised IntegrityError, fresh_db).
Proof.
  split.
  - apply (proj1 (create_song_succeeds_iff_insertable song_S1 fresh_db eq_refl)).
    split; [repeat constructor; intros [] | intros t _; reflexivity].
  - apply (proj2 (create_song_succeeds_iff_insertable song_two_en fresh_db eq_refl)).
    intros [Hn _]. simpl in Hn. inversion Hn as [|? ? Hx _]. apply Hx. now left.
Defined.

Lemma row_Translation_row_of sn ts : map row_Translation (map (row_of sn) ts) = ts.
Proof.
  induction ts as [|[l ti te] ts IH]; simpl; auto. now rewrite IH.
Qed.

Lemma filter_translation_of_rows sn ts :
  filter (translation_of sn) (map (row_of sn) ts) = map (row_of sn) ts.
Proof.
  induction ts as [|t ts IH]; simpl; auto.
  unfold translation_of at 1. simpl. rewrite String.eqb_refl. now rewrite IH.
Qed.

Lemma no_rows_no_translation sn lang d :
  filter (translation_of sn) (tbl_translations d) = [] ->
  has_translation sn lang d = false.
Proof.
  unfold has_translation. intro H.
  induction (tbl_translations d) as [|r l IH]; simpl in *; auto.
  unfold translation_is. destruct (translation_of sn r) eqn:E; [discriminate|].
  unfold translation_of in E. rewrite E. simpl. now apply IH.
Qed.

Lemma filter_song_is_snoc sn ti te d :
  has_song sn d = false ->
  filter (song_is sn) (tbl_songs d ++ [mk_songs_row sn ti te]) =
  [mk_songs_row sn ti te].
Proof.
  intro H. rewrite filter_app, (filter_song_is_nil _ _ H). simpl.
  unfold song_is. simpl. now rewrite String.eqb_refl.
Qed.

Lemma index_order_permutation l : Permutation (index_order l) l.
Proof.
  assert (Hins : forall r l0, Permutation (insert_by_language r l0) (r :: l0)).
  { intros r l0. induction l0 as [|x l0 IH]; simpl; auto.
    destruct (String.leb (t_language r) (t_language x)); auto.
    apply perm_trans with (x :: r :: l0); [now apply perm_skip | apply perm_swap]. }
  induction l as [|r l IH]; simpl; auto.
  apply perm_trans with (r :: index_order l); [apply Hins | now apply perm_skip].
Qed.

Lemma insert_by_language_sorted r l :
  Sorted row_language_le l -> Sorted row_language_le (insert_by_language r l).
Proof.
  induction l as [|x l IH]; intro Hs; simpl.
  - repeat constructor.
  - destruct (String.leb (t_language r) (t_language x)) eqn:E.
    + constructor; auto.
    + inversion Hs as [|? ? Hl Hx]; subst. constructor; auto.
      assert (Hxr : row_language_le x r).
      { unfold row_language_le.
        destruct (String.leb_total (t_language x) (t_language r)); congruence. }
      destruct l as [|y l]; simpl.
      * now constructor.
      * destruct (String.leb (t_language r) (t_language y)); constructor; auto.
        now inversion Hx.
Qed.

Lemma index_order_sorted l : Sorted row_language_le (index_order l).
Proof.
  induction l as [|r l IH]; simpl; [constructor|].
  now apply insert_by_language_sorted.
Qed.

Lemma index_order_of_sorted l :
  Sorted row_language_le l -> index_order l = l.
Proof.
  induction l as [|r l IH]; intro Hs; simpl; auto.
  inversion Hs as [|? ? Hl Hr]; subst. rewrite (IH Hl).
  destruct l as [|x l]; simpl; auto.
  inversion Hr as [|? ? Hrx]; subst. unfold row_language_le in Hrx.
  now rewrite Hrx.
Qed.

Lemma sorted_rows_translations l :
  Sorted row_language_le l -> Sorted language_le (map row_Translation l).
Proof.
  induction 1 as [|r l Hl IH Hr]; simpl; constructor; auto.
  destruct Hr; simpl; constructor; auto.
Qed.

Lemma sorted_translations_rows sn ts :
  Sorted language_le ts -> Sorted row_language_le (map (row_of sn) ts).
Proof.
  induction 1 as [|t ts Hl IH Ht]; simpl; constructor; auto.
  destruct Ht; simpl; constructor; auto.
Qed.

(** X4: create, then get.  When the song number is new, the store holds
    no translation row for it and the payload has no language twice,
    [POST /songs] returns the payload and a following
    [GET /songs/{song_number}] returns a [Song] with the payload's
    primary fields and the payload's translations, ordered by language
    (the order of the index, not of the payload).  When the payload
    lists its translations by language already, [GET] returns the very
    same [Song]. *)
Theorem create_then_get_roundtrip (song : Song) (d : Database) :
  has_song (song_number song) d = false ->
  filter (translation_of (song_number song)) (tbl_translations d) = [] ->
  NoDup (map language (translations song)) ->
  fst (create_song song d) = Returned song /\
  (exists shown,
     get_song (song_number song) None (snd (create_song song d)) =
       (Returned shown, snd (create_song song d)) /\
     song_number shown = song_number song /\
     title_ta shown = title_ta song /\
     text_ta shown = text_ta song /\
     Permutation (translations shown) (translations song) /\
     Sorted language_le (translations shown)) /\
  (Sorted language_le (translations song) ->
   get_song (song_number song) None (snd (create_song song d)) =
     (Returned song, snd (create_song song d))).
Proof.
  intros Habsent Hnone Hn.
  assert (Hi : insertable (song_number song) (translations song) d).
  { split; auto. intros t _. now apply no_rows_no_translation. }
  rewrite (create_song_insertable song d Habsent Hi).
  split; [reflexivity|]. cbn [fst snd].
  erewrite get_song_found by (simpl; now apply filter_song_is_snoc).
  unfold shown_song, shown_translations, all_translations. simpl.
  rewrite filter_app, Hnone, filter_translation_of_rows. cbn [app].
  split.
  - eexists. split; [reflexivity|]. simpl. repeat split.
    + rewrite <- (row_Translation_row_of (song_number song) (translations song)) at 2.
      apply Permutation_map, index_order_permutation.
    + apply sorted_rows_translations, index_order_sorted.
  - intro Hs.
    rewrite (index_order_of_sorted _ (sorted_translations_rows _ _ Hs)).
    rewrite row_Translation_row_of. now destruct song.
Qed.

Lemma create_then_get_roundtrip_witness :
  (exists shown,
     get_song "S1" None (snd (create_song song_fr_en fresh_db)) =
       (Returned shown, snd (create_song song_fr_en fresh_db)) /\
     Permutation (translations shown) (translations song_fr_en)) /\
  get_song "S1" None (snd (create_song song_fr_en fresh_db)) =
    (Returned (mkSong "S1" "t" "x"
                 [mkTranslation "en" "a" "b"; mkTranslation "fr" "c" "d"]),
     snd (create_song song_fr_en fresh_db)) /\
  get_song "S1" None (snd (create_song song_S1 fresh_db)) =
    (Returned song_S1, snd (create_song song_S1 fresh_db)).
Proof.
  assert (Hn : NoDup (map language (translations song_fr_en))).
  { simpl. constructor; [intros [H|[]]; discriminate | repeat constructor; intros []]. }
  assert (Hn1 : NoDup (map language (translations song_S1))).
  { repeat constructor. intros []. }
  split; [|split].
  - destruct (create_then_get_roundtrip song_fr_en fresh_db eq_refl eq_refl Hn)
      as (_ & (shown & H1 & _ & _ & _ & H5 & _) & _).
    exists shown. split; assumption.
  - reflexivity.
  - apply (create_then_get_roundtrip song_S1 fresh_db eq_refl eq_refl Hn1).
    repeat constructor.
Defined.

Lemma filter_not_song_is sn l :
  existsb (song_is sn) (filter (fun r => negb (song_is sn r)) l) = false.
Proof.
  induction l as [|r l IH]; simpl; auto.
  destruct (song_is sn r) eqn:E; simpl; auto. now rewrite E.
Qed.

(** X5: a song that was created with at least one translation and then
    deleted cannot be posted again: the same payload now fails with
    [IntegrityError], because its translation rows are still in the
    table, and the store stays as the delete left it. *)
Theorem create_delete_create_fails (song : Song) (d : Database) :
  has_song (song_number song) d = false ->
  fst (create_song song d) = Returned song ->
  translations song <> [] ->
  let deleted := snd (delete_song (song_number song) (snd (create_song song d))) in
  create_song song deleted = (Raised IntegrityError, deleted).
Proof.
  intros Habsent Hok Hne deleted.
  assert (Hi : insertable (song_number song) (translations song) d).
  { rewrite create_song_run, Habsent in Hok.
    destruct (insert_all (song_number song) (translations song) (with_song song d))
      as [d'|] eqn:E; [|discriminate].
    destruct (insert_all_some _ _ _ _ E) as [Hn Hp]. split; auto. }
  assert (Hd : deleted =
               mkDatabase
                 (filter (fun r => negb (song_is (song_number song) r))
                    (tbl_songs d ++
                       [mk_songs_row (song_number song) (title_ta song) (text_ta song)]))
                 (tbl_translations d ++
                    map (row_of (song_number song)) (translations song))).
  { unfold deleted.
    rewrite (create_song_insertable song d Habsent Hi).
    now rewrite delete_song_run. }
  assert (Hgone : has_song (song_number song) deleted = false).
  { rewrite Hd. unfold has_song. simpl. apply filter_not_song_is. }
  apply (create_song_not_insertable song deleted Hgone).
  intros [_ Hp]. destruct (translations song) as [|t ts] eqn:Ets; [now apply Hne|].
  specialize (Hp t (or_introl eq_refl)).
  rewrite Hd in Hp. unfold has_translation in Hp. simpl in Hp.
  rewrite existsb_app in Hp. simpl in Hp.
  unfold translation_is at 2 in Hp. simpl in Hp.
  rewrite !String.eqb_refl in Hp. simpl in Hp.
  rewrite orb_true_r in Hp. discriminate.
Qed.

Lemma create_delete_create_fails_witness :
  create_song song_S1 db_S1_deleted = (Raised IntegrityError, db_S1_deleted).
Proof.
  refine (create_delete_create_fails song_S1 fresh_db eq_refl eq_refl _).
  discriminate.
Defined.

(** ** DELETE /songs/{song_number} *)

Lemma filter_not_song_is_absent sn l :
  existsb (song_is sn) l = false ->
  filter (fun r => negb (song_is sn r)) l = l.
Proof.
  induction l as [|r l IH]; simpl; auto.
  destruct (song_is sn r); simpl; [discriminate|].
  intro H. now rewrite IH.
Qed.

(** X6: [DELETE /songs/S] always answers with success; when [S] is not
    in the store the store is left as it is; a second delete of the
    same song changes nothing more; and after it [GET /songs/S] is a
    404. *)
Theorem delete_song_idempotent (sn : string) (d : Database) :
  fst (delete_song sn d) = Returned tt /\
  (has_song sn d = false -> snd (delete_song sn d) = d) /\
  delete_song sn (snd (delete_song sn d)) = (Returned tt, snd (delete_song sn d)) /\
  forall language,
    fst (get_song sn language (snd (delete_song sn d))) =
    Raised (HTTPException 404 "Song not found").
Proof.
  assert (Habsent : forall d0, has_song sn d0 = false -> without_song sn d0 = d0).
  { intros d0 H. unfold without_song. unfold has_song in H.
    rewrite (filter_not_song_is_absent _ _ H). now destruct d0. }
  pose proof (proj1 (delete_song_store sn d)) as Hgone.
  rewrite delete_song_run in Hgone. cbn [snd] in Hgone.
  rewrite !delete_song_run. cbn [fst snd].
  split; [reflexivity|]. split; [apply Habsent|]. split.
  - now rewrite (Habsent _ Hgone).
  - intro language. now rewrite get_song_missing.
Qed.

Lemma delete_song_idempotent_witness :
  has_song "ZZZ" db_S1 = false /\ snd (delete_song "ZZZ" db_S1) = db_S1.
Proof.
  split; [reflexivity|].
  apply (proj1 (proj2 (delete_song_idempotent "ZZZ" db_S1))). reflexivity.
Defined.

(** ** A write for one song and the reads of another *)

Lemma get_song_same_rows sn language d1 d2 :
  filter (song_is sn) (tbl_songs d1) = filter (song_is sn) (tbl_songs d2) ->
  filter (translation_of sn) (tbl_translations d1) =
  filter (translation_of sn) (tbl_translations d2) ->
  fst (get_song sn language d1) = fst (get_song sn language d2).
Proof.
  intros Hs Ht.
  destruct (filter (song_is sn) (tbl_songs d2)) as [|r rest] eqn:E.
  - assert (H404 : forall d, filter (song_is sn) (tbl_songs d) = [] ->
                   fst (get_song sn language d) =
                   Raised (HTTPException 404 "Song not found")).
    { intros d H. unfold get_song, connect, bind, select_songs_where. simpl.
      now rewrite H. }
    now rewrite (H404 d1 Hs), (H404 d2 E).
  - rewrite (get_song_found _ _ _ _ _ Hs), (get_song_found _ _ _ _ _ E). simpl.
    pose proof (filter_head_song_is _ _ _ _ E) as Hsn.
    pose proof (filter_head_song_is _ _ _ _ Hs) as Hsn'.
    assert (Hr : s_song_number r = sn) by exact Hsn.
    unfold shown_song, shown_translations, translations_in, all_translations.
    rewrite Hr.
    destruct language as [lang|]; simpl;
      [destruct (lang =? ""); simpl|]; rewrite ?filter_translation_is, Ht;
      reflexivity.
Qed.

Lemma filter_other_song_patch_row sn song other l :
  other <> sn ->
  filter (song_is other) (map (patch_row sn song) l) = filter (song_is other) l.
Proof.
  intro Hne. apply filter_map_fixed; intro r.
  - apply patch_row_song_is.
  - intro Ho. unfold patch_row. destruct (song_is sn r) eqn:E; auto.
    apply song_is_eq in Ho, E. congruence.
Qed.

Lemma filter_other_song_upsert sn other d t :
  other <> sn ->
  filter (translation_of other) (tbl_translations (upsert_translation sn d t)) =
  filter (translation_of other) (tbl_translations d).
Proof.
  intro Hne. apply String.eqb_neq in Hne. rewrite String.eqb_sym in Hne.
  unfold upsert_translation.
  destruct (has_translation sn (language t) d); simpl.
  - apply filter_map_fixed; intro r; unfold set_title_text;
      destruct (translation_is sn (language t) r) eqn:E; auto.
    intro Ho. unfold translation_of in Ho. unfold translation_is in E.
    apply andb_true_iff in E as [E _].
    apply String.eqb_eq in Ho, E. rewrite Ho in E. subst.
    rewrite String.eqb_refl in Hne. discriminate.
  - apply filter_snoc_out. unfold translation_of. simpl. exact Hne.
Qed.

Lemma filter_other_song_upserts sn other ts : forall d,
  other <> sn ->
  filter (translation_of other)
         (tbl_translations (fold_left (upsert_translation sn) ts d)) =
  filter (translation_of other) (tbl_translations d).
Proof.
  induction ts as [|t ts IH]; intros d Hne; simpl; auto.
  rewrite IH by exact Hne. now apply filter_other_song_upsert.
Qed.

(** X7: a [PATCH /songs/S], whatever its body and whether it succeeds,
    does not change what [GET /songs/S'] returns for another song
    [S']. *)
Theorem update_song_leaves_other_songs (sn other : string) (song : SongUpdate.t)
    (language : option string) (d : Database) :
  other <> sn ->
  fst (get_song other language (snd (update_song sn song d))) =
  fst (get_song other language d).
Proof.
  intro Hne. destruct (has_song sn d) eqn:E.
  - rewrite (update_song_run _ _ _ E). simpl. apply get_song_same_rows.
    + rewrite patched_songs. now apply filter_other_song_patch_row.
    + unfold patched, patch_translations.
      destruct (SongUpdate.translations song) as [ts|].
      * rewrite filter_other_song_upserts by exact Hne.
        now rewrite patch_columns_translations.
      * now rewrite patch_columns_translations.
  - now rewrite (update_song_missing _ _ _ E).
Qed.

Lemma update_song_leaves_other_songs_witness :
  fst (get_song "S2" None
         (snd (update_song "S1"
                 (SongUpdate.mk (Some "new") None (Some [mkTranslation "en" "A" "B"]))
                 db_two_songs))) =
  Returned (mkSong "S2" "t2" "x2" [mkTranslation "en" "c" "d"]).
Proof.
  assert (Hne : "S2" <> "S1") by discriminate.
  rewrite (update_song_leaves_other_songs "S1" "S2" _ None db_two_songs Hne).
  reflexivity.
Defined.

Lemma filter_translation_of_other_rows sn other ts :
  (sn =? other) = false ->
  filter (translation_of other) (map (row_of sn) ts) = [].
Proof.
  intro Hne. induction ts as [|t ts IH]; simpl; auto.
  unfold translation_of at 1. cbn [row_of t_song_number]. now rewrite Hne.
Qed.

(** X8: a [POST /songs] for song [S], whether it succeeds or fails,
    does not change what [GET /songs/S'] returns for another song
    [S']. *)
Theorem create_song_leaves_other_songs (song : Song) (other : string)
    (language : option string) (d : Database) :
  other <> song_number song ->
  fst (get_song other language (snd (create_song song d))) =
  fst (get_song other language d).
Proof.
  intro Hne. rewrite create_song_run.
  destruct (has_song (song_number song) d) eqn:E; [reflexivity|].
  destruct (insert_all (song_number song) (translations song) (with_song song d))
    as [d'|] eqn:I; [|reflexivity].
  pose proof (insert_all_some _ _ _ _ I) as Hi.
  rewrite (insert_all_insertable _ _ _ Hi) in I. inversion I; subst d'. simpl.
  assert (Hne' : (song_number song =? other) = false).
  { apply String.eqb_neq. congruence. }
  apply get_song_same_rows; simpl.
  - rewrite filter_app. simpl. unfold song_is at 2. simpl. rewrite Hne'.
    apply app_nil_r.
  - rewrite filter_app.
    rewrite (filter_translation_of_other_rows _ _ _ Hne'). apply app_nil_r.
Qed.

Lemma create_song_leaves_other_songs_witness :
  fst (get_song "S1" None db_two_songs) =
  Returned (mkSong "S1" "t" "x" [mkTranslation "en" "a" "b"]).
Proof.
  assert (Hne : "S1" <> "S2") by discriminate.
  unfold db_two_songs.
  rewrite (create_song_leaves_other_songs
             (mkSong "S2" "t2" "x2" [mkTranslation "en" "c" "d"]) "S1" None db_S1 Hne).
  reflexivity.
Defined.

(** X9: a [DELETE /songs/S] does not change what [GET /songs/S']
    returns for another song [S']. *)
Theorem delete_song_leaves_other_songs (sn other : string)
    (language : option string) (d : Database) :
  other <> sn ->
  fst (get_song other language (snd (delete_song sn d))) =
  fst (get_song other language d).
Proof.
  intro Hne. rewrite delete_song_run. simpl.
  apply get_song_same_rows; simpl; auto.
  induction (tbl_songs d) as [|r l IH]; simpl; auto.
  destruct (song_is sn r) eqn:E; simpl.
  - destruct (song_is other r) eqn:Eo; auto.
    apply song_is_eq in E, Eo. congruence.
  - now rewrite IH.
Qed.

Lemma delete_song_leaves_other_songs_witness :
  fst (get_song "S2" None (snd (delete_song "S1" db_two_songs))) =
  Returned (mkSong "S2" "t2" "x2" [mkTranslation "en" "c" "d"]).
Proof.
  assert (Hne : "S2" <> "S1") by discriminate.
  rewrite (delete_song_leaves_other_songs "S1" "S2" None db_two_songs Hne).
  reflexivity.
Defined.

(** ** PATCH /songs/{song_number}: response and error behaviour *)

(** X10: a [PATCH] whose body has nothing truthy (every field absent or
    empty) writes nothing and answers exactly like
    [GET /songs/{song_number}]: the stored song, or a 404. *)
Theorem patch_with_nothing_to_write_is_get (sn : string) (song : SongUpdate.t)
    (d : Database) :
  nothing_to_write song = true ->
  update_song sn song d = get_song sn None d.
Proof.
  unfold nothing_to_write. intro H.
  apply andb_true_iff in H as [H Htr]. apply andb_true_iff in H as [Hti Hte].
  apply negb_true_iff in Hti, Hte.
  destruct (has_song sn d) eqn:E.
  - rewrite (update_song_run _ _ _ E).
    assert (Hp : patched sn song d = d).
    { unfold patched, patch_translations, patch_columns. rewrite Hti, Hte. simpl.
      destruct (SongUpdate.translations song) as [[|t ts]|]; auto. discriminate. }
    rewrite Hp. pose proof (get_song_store sn None d) as Hs.
    destruct (get_song sn None d) as [res d']. simpl in *. now subst.
  - now rewrite update_song_missing, get_song_missing.
Qed.

Lemma patch_with_nothing_to_write_is_get_witness :
  update_song "S1" (SongUpdate.mk (Some "") None (Some [])) db_S1 =
  get_song "S1" None db_S1.
Proof.
  apply (patch_with_nothing_to_write_is_get "S1"
           (SongUpdate.mk (Some "") None (Some [])) db_S1).
  reflexivity.
Defined.

(** X11: a [PATCH] of an existing song never fails.  It returns a
    [Song] with the song number of the request, [title_ta] and
    [text_ta] replaced by the request's values where these are
    non-empty and kept otherwise, and this [Song] is what
    [GET /songs/{song_number}] returns afterwards.  The song numbers in
    the [songs] table are not changed by any [PATCH]. *)
Theorem patch_returns_stored_song (sn : string) (song : SongUpdate.t)
    (d : Database) (r : songs_row) (rest : list songs_row) :
  filter (song_is sn) (tbl_songs d) = r :: rest ->
  (exists s,
     fst (update_song sn song d) = Returned s /\
     song_number s = sn /\
     title_ta s = new_value (SongUpdate.title_ta song) (s_title_ta r) /\
     text_ta s = new_value (SongUpdate.text_ta song) (s_text_ta r) /\
     get_song sn None (snd (update_song sn song d)) =
       (Returned s, snd (update_song sn song d))) /\
  map s_song_number (tbl_songs (snd (update_song sn song d))) =
  map s_song_number (tbl_songs d).
Proof.
  intro Hf. pose proof (filter_head_song_is _ _ _ _ Hf) as Hsn.
  assert (Hr : song_is sn r = true) by (unfold song_is; rewrite Hsn; apply String.eqb_refl).
  rewrite (update_song_found _ _ _ _ _ Hf). cbn [fst snd]. split.
  - eexists. split; [reflexivity|].
    unfold shown_song, patch_row. rewrite Hr. cbn [song_number title_ta text_ta s_song_number s_title_ta s_text_ta].
    repeat split; auto.
    erewrite get_song_found.
    2:{ rewrite patched_songs, filter_map_patch_row, Hf. reflexivity. }
    unfold shown_song, patch_row. rewrite Hr. reflexivity.
  - rewrite patched_songs, map_map. apply map_ext. intro x.
    unfold patch_row. now destruct (song_is sn x).
Qed.

Lemma patch_returns_stored_song_witness :
  exists s,
    fst (update_song "S1" (SongUpdate.mk (Some "T") (Some "") None) db_S1) = Returned s /\
    song_number s = "S1" /\ title_ta s = "T" /\ text_ta s = "x".
Proof.
  destruct (proj1 (patch_returns_stored_song "S1"
                     (SongUpdate.mk (Some "T") (Some "") None) db_S1
                     (mk_songs_row "S1" "t" "x") [] eq_refl))
    as (s & H1 & H2 & H3 & H4 & _).
  exists s. repeat split; assumption.
Defined.

(** X12: the [UPDATE] statement that [PATCH] builds.  Whenever it is
    executed (one of the two fields is truthy) its [SET] list is not
    empty, it has one parameter per placeholder plus the key, the key
    is the song number of the request, and the statement rewrites the
    truthy columns of the rows of that song and no other row. *)
Theorem set_clause_well_formed (song : SongUpdate.t) (sn : string)
    (fk : bool) (d : Database) :
  truthy (SongUpdate.title_ta song) || truthy (SongUpdate.text_ta song) = true ->
  fst (set_clause song sn) <> [] /\
  length (snd (set_clause song sn)) = S (length (fst (set_clause song sn))) /\
  last (snd (set_clause song sn)) "" = sn /\
  update_songs_set (fst (set_clause song sn)) (snd (set_clause song sn)) fk d =
    Changed (mkDatabase (map (patch_row sn song) (tbl_songs d)) (tbl_translations d)).
Proof.
  intro H.
  assert (Hrows : forall f : songs_row -> songs_row,
            (forall x, f x = patch_row sn song x) ->
            Changed (mkDatabase (map f (tbl_songs d)) (tbl_translations d)) =
            Changed (mkDatabase (map (patch_row sn song) (tbl_songs d))
                       (tbl_translations d))).
  { intros f Hf. do 2 f_equal. now apply map_ext. }
  unfold set_clause, update_songs_set.
  destruct song as [[ti|] [te|] trs]; simpl in *;
    try destruct (ti =? "") eqn:Eti; try destruct (te =? "") eqn:Ete;
    simpl in *; try discriminate;
    (split; [discriminate|]); (split; [reflexivity|]); (split; [reflexivity|]);
    apply Hrows; intro x; unfold patch_row, new_value; simpl;
    rewrite ?Eti, ?Ete; simpl; now destruct (song_is sn x).
Qed.

Lemma set_clause_well_formed_witness :
  set_clause (SongUpdate.mk (Some "T") (Some "X") None) "S1" =
    ([title_ta_eq; text_ta_eq], ["T"; "X"; "S1"]) /\
  last (snd (set_clause (SongUpdate.mk (Some "T") (Some "X") None) "S1")) "" = "S1".
Proof.
  split; [reflexivity|].
  apply (set_clause_well_formed (SongUpdate.mk (Some "T") (Some "X") None) "S1"
           false db_S1).
  reflexivity.
Defined.

(** ** Which errors a handler can raise *)

(** X13: the only error of [GET /songs/{song_number}] and of [PATCH] is
    the 404 of an unknown song; [POST /songs] raises nothing but the
    400 of an existing song or an [IntegrityError]; [GET /songs],
    [DELETE] and the bootstrap loader never raise.  The reads never
    change the store, and a request that raises leaves it as it was. *)
Theorem handler_errors :
  (forall sn language d,
     snd (get_song sn language d) = d /\
     forall e, fst (get_song sn language d) = Raised e ->
               e = HTTPException 404 "Song not found" /\ has_song sn d = false) /\
  (forall language d, exists songs, get_songs language d = (Returned songs, d)) /\
  (forall song d e,
     fst (create_song song d) = Raised e ->
     (e = HTTPException 400 "Song already exists" \/ e = IntegrityError) /\
     snd (create_song song d) = d) /\
  (forall sn song d e,
     fst (update_song sn song d) = Raised e ->
     e = HTTPException 404 "Song not found" /\ has_song sn d = false /\
     snd (update_song sn song d) = d) /\
  (forall sn d, fst (delete_song sn d) = Returned tt) /\
  (forall data_file d, fst (load_initial_data data_file d) = Returned tt).
Proof.
  assert (Hfound : forall sn (d : Database), has_song sn d = true ->
            exists r rest, filter (song_is sn) (tbl_songs d) = r :: rest).
  { intros sn d E. destruct (filter_song_is_cons _ _ E) as (r & rest & Hf & _).
    now exists r, rest. }
  split; [|split; [|split; [|split; [|split]]]].
  - intros sn language d. split; [apply get_song_store|].
    intros e H. destruct (has_song sn d) eqn:E.
    + destruct (Hfound _ _ E) as (r & rest & Hf).
      rewrite (get_song_found _ _ _ _ _ Hf) in H. discriminate.
    + rewrite (get_song_missing _ _ _ E) in H. simpl in H. split; congruence.
  - intros language d. eexists. apply get_songs_run.
  - intros song d e H. rewrite create_song_run in *.
    destruct (has_song (song_number song) d); simpl in *.
    + split; [left; congruence | reflexivity].
    + destruct (insert_all _ _ _); simpl in *; [discriminate|].
      split; [right; congruence | reflexivity].
  - intros sn song d e H. destruct (has_song sn d) eqn:E.
    + destruct (Hfound _ _ E) as (r & rest & Hf).
      rewrite (update_song_found _ _ _ _ _ Hf) in H. discriminate.
    + rewrite (update_song_missing _ _ _ E) in *. simpl in *.
      repeat split; congruence.
  - intros sn d. now rewrite delete_song_run.
  - intros data_file d.
    destruct data_file as [data|]; [now rewrite load_initial_data_run | reflexivity].
Qed.

Lemma handler_errors_witness :
  fst (create_song song_two_en db_S1) = Raised IntegrityError /\
  snd (create_song song_two_en db_S1) = db_S1.
Proof.
  split; [reflexivity|].
  destruct handler_errors as (_ & _ & H & _).
  apply (H song_two_en db_S1 IntegrityError). reflexivity.
Defined.

(** ** Referential integrity without DELETE *)

Lemma no_orphans_step d d' :
  (forall sn, has_song sn d = true -> has_song sn d' = true) ->
  (forall r', In r' (tbl_translations d') ->
              (exists r, In r (tbl_translations d) /\
                         t_song_number r = t_song_number r') \/
              has_song (t_song_number r') d' = true) ->
  no_orphans d -> no_orphans d'.
Proof.
  intros Hs Ht Hd r' Hr'. destruct (Ht r' Hr') as [(r & Hin & Heq)|H]; auto.
  rewrite <- Heq. apply Hs. now apply Hd.
Qed.

Lemma has_song_append sn d row trs :
  has_song sn (mkDatabase (tbl_songs d ++ [row]) trs) =
  has_song sn d || song_is sn row.
Proof.
  unfold has_song. simpl. rewrite existsb_app. simpl. now rewrite orb_false_r.
Qed.

Lemma no_orphans_append_song sn ti te d :
  no_orphans d ->
  no_orphans (mkDatabase (tbl_songs d ++ [mk_songs_row sn ti te]) (tbl_translations d)).
Proof.
  apply no_orphans_step.
  - intros x Hx. rewrite has_song_append, Hx. reflexivity.
  - intros r' Hr'. left. exists r'. split; auto.
Qed.

Lemma no_orphans_append_translation sn row d :
  has_song sn d = true -> t_song_number row = sn ->
  no_orphans d ->
  no_orphans (mkDatabase (tbl_songs d) (tbl_translations d ++ [row])).
Proof.
  intros Hs Hrow. apply no_orphans_step.
  - intros x Hx. exact Hx.
  - intros r' Hr'. simpl in Hr'. apply in_app_or in Hr' as [Hr'|[<-|[]]].
    + left. exists r'. split; auto.
    + right. rewrite Hrow. exact Hs.
Qed.

Lemma no_orphans_put_song sn ti te d :
  no_orphans d ->
  no_orphans (put_song sn ti te d) /\ has_song sn (put_song sn ti te d) = true.
Proof.
  intro H. unfold put_song. destruct (has_song sn d) eqn:E; [now split|].
  split; [now apply no_orphans_append_song|].
  rewrite has_song_append. unfold song_is. simpl.
  rewrite String.eqb_refl. apply orb_true_r.
Qed.

Lemma no_orphans_put_translation sn d t :
  has_song sn d = true -> no_orphans d ->
  no_orphans (put_translation sn d t) /\ has_song sn (put_translation sn d t) = true.
Proof.
  intros Hs H. unfold put_translation.
  destruct (has_translation sn (language t) d); [now split|].
  split; [now apply (no_orphans_append_translation sn) | exact Hs].
Qed.

Lemma no_orphans_upsert sn d t :
  has_song sn d = true -> no_orphans d ->
  no_orphans (upsert_translation sn d t) /\
  has_song sn (upsert_translation sn d t) = true.
Proof.
  intros Hs H. unfold upsert_translation.
  destruct (has_translation sn (language t) d).
  - split; [|exact Hs]. revert H. apply no_orphans_step; auto.
    intros r' Hr'. simpl in Hr'. apply in_map_iff in Hr' as (r & <- & Hin).
    left. exists r. split; auto.
    unfold set_title_text. now destruct (translation_is sn (language t) r).
  - split; [now apply (no_orphans_append_translation sn) | exact Hs].
Qed.

Lemma no_orphans_fold {A} (g : Database -> A -> Database) sn xs :
  (forall d x, has_song sn d = true -> no_orphans d ->
               no_orphans (g d x) /\ has_song sn (g d x) = true) ->
  forall d, has_song sn d = true -> no_orphans d ->
            no_orphans (fold_left g xs d).
Proof.
  intro Hg. induction xs as [|x xs IH]; intros d Hs H; simpl; auto.
  destruct (Hg d x Hs H) as [H1 H2]. now apply IH.
Qed.

Lemma no_orphans_load_item d item : no_orphans d -> no_orphans (load_item d item).
Proof.
  intro H. unfold load_item.
  destruct (no_orphans_put_song (seed_song_number item) (seed_title_ta item)
              (seed_text_ta item) d H) as [H1 H2].
  apply (no_orphans_fold _ (seed_song_number item)); auto.
  intros. now apply no_orphans_put_translation.
Qed.

Lemma no_orphans_loaded data : forall d,
  no_orphans d -> no_orphans (fold_left load_item data d).
Proof.
  induction data as [|item data IH]; intros d H; simpl; auto.
  apply IH. now apply no_orphans_load_item.
Qed.

Lemma no_orphans_patched sn song d :
  has_song sn d = true -> no_orphans d -> no_orphans (patched sn song d).
Proof.
  intros Hs H.
  assert (Hsongs : forall x, has_song x (patch_columns sn song d) = has_song x d).
  { intro x. unfold has_song. rewrite patch_columns_songs.
    induction (tbl_songs d) as [|r l IH]; simpl; auto.
    now rewrite patch_row_song_is, IH. }
  assert (Hc : no_orphans (patch_columns sn song d)).
  { revert H. apply no_orphans_step.
    - intros x Hx. now rewrite Hsongs.
    - intros r' Hr'. rewrite patch_columns_translations in Hr'.
      left. exists r'. split; auto. }
  unfold patched, patch_translations.
  destruct (SongUpdate.translations song) as [ts|]; auto.
  apply (no_orphans_fold _ sn); auto.
  - intros. now apply no_orphans_upsert.
  - now rewrite Hsongs.
Qed.

Lemma no_orphans_created song d d' :
  no_orphans d ->
  insert_all (song_number song) (translations song) (with_song song d) = Some d' ->
  no_orphans d'.
Proof.
  intros H I. pose proof (insert_all_some _ _ _ _ I) as Hi.
  rewrite (insert_all_insertable _ _ _ Hi) in I. inversion I; subst d'.
  intros r Hr. simpl in Hr. rewrite has_song_append.
  apply in_app_or in Hr as [Hr|Hr].
  - rewrite (H r Hr). reflexivity.
  - apply in_map_iff in Hr as (t & <- & _). simpl.
    unfold song_is. simpl. rewrite String.eqb_refl. apply orb_true_r.
Qed.

(** X14: as long as no [DELETE] request is made, every translation row
    has its song: the loader, [POST] and [PATCH] insert a translation
    only for a song whose row is there.  Only [DELETE] can leave
    translation rows without a song. *)
Theorem no_orphans_without_delete (d : Database) :
  reachable_without_delete d -> no_orphans d.
Proof.
  induction 1 as [|file d _ IH|lang d _ IH|sn lang d _ IH|song d _ IH
                  |sn song d _ IH].
  - intros r [].
  - destruct file as [data|]; [|exact IH].
    rewrite load_initial_data_run. simpl. now apply no_orphans_loaded.
  - now rewrite get_songs_run.
  - now rewrite get_song_store.
  - rewrite create_song_run.
    destruct (has_song (song_number song) d) eqn:E; [exact IH|].
    destruct (insert_all _ _ _) eqn:I; [|exact IH].
    simpl. now apply (no_orphans_created song d).
  - destruct (has_song sn d) eqn:E.
    + rewrite update_song_run by exact E. simpl. now apply no_orphans_patched.
    + now rewrite update_song_missing.
Qed.

Lemma no_orphans_without_delete_witness :
  has_song "S1" db_S1 = true.
Proof.
  apply (no_orphans_without_delete db_S1 (rwd_create song_S1 _ rwd_init)
           (mk_translations_row "S1" "en" "a" "b")).
  now left.
Defined.

(** ** Startup *)

Lemma find_none_existsb {A} (f : A -> bool) l :
  existsb f l = true -> find f l <> None.
Proof.
  induction l as [|x l IH]; simpl; [discriminate|].
  destruct (f x); simpl; [discriminate | exact IH].
Qed.

Lemma hd_filter_find {A} (f : A -> bool) l :
  hd_error (filter f l) = find f l.
Proof.
  induction l as [|x l IH]; simpl; auto. now destruct (f x).
Qed.

Lemma puts_songs sn ts : forall d,
  tbl_songs (fold_left (put_translation sn) ts d) = tbl_songs d.
Proof.
  induction ts as [|t ts IH]; intro d; simpl; auto.
  rewrite IH. unfold put_translation.
  now destruct (has_translation sn (language t) d).
Qed.

Lemma find_put_song key sn ti te d :
  find (song_is key) (tbl_songs (put_song sn ti te d)) =
  match find (song_is key) (tbl_songs d) with
  | Some r => Some r
  | None => if sn =? key then Some (mk_songs_row sn ti te) else None
  end.
Proof.
  unfold put_song. destruct (has_song sn d) eqn:E.
  - destruct (find (song_is key) (tbl_songs d)) eqn:F; auto.
    destruct (sn =? key) eqn:K; auto.
    apply String.eqb_eq in K. subst key.
    exfalso. now apply (find_none_existsb _ _ E).
  - simpl. rewrite find_app_or. now destruct (find (song_is key) (tbl_songs d)).
Qed.

Lemma find_loaded key data : forall d,
  find (song_is key) (tbl_songs (fold_left load_item data d)) =
  match find (song_is key) (tbl_songs d) with
  | Some r => Some r
  | None =>
      match first_seed key data with
      | Some item => Some (mk_songs_row (seed_song_number item)
                             (seed_title_ta item) (seed_text_ta item))
      | None => None
      end
  end.
Proof.
  unfold first_seed.
  induction data as [|item data IH]; intro d; simpl.
  - now destruct (find (song_is key) (tbl_songs d)).
  - rewrite IH. unfold load_item. rewrite puts_songs, find_put_song.
    destruct (find (song_is key) (tbl_songs d)); auto.
    now destruct (seed_song_number item =? key).
Qed.

(** X15: startup on a path with no tables.  After [startup_event] has
    loaded the seed file, [GET /songs/S] returns the primary fields of
    the first seed object whose song number is [S] (later objects with
    the same number do not overwrite it), and a 404 when the seed has
    no such object. *)
Theorem startup_first_seed_wins (data : list seed_item) (sn : string) :
  let d := startup_event None (Some data) in
  match first_seed sn data with
  | Some item =>
      exists ts,
        get_song sn None d =
        (Returned (mkSong sn (seed_title_ta item) (seed_text_ta item) ts), d)
  | None =>
      get_song sn None d = (Raised (HTTPException 404 "Song not found"), d)
  end.
Proof.
  intro d.
  assert (Hfind : find (song_is sn) (tbl_songs d) =
                  match first_seed sn data with
                  | Some item => Some (mk_songs_row (seed_song_number item)
                                         (seed_title_ta item) (seed_text_ta item))
                  | None => None
                  end).
  { unfold d, startup_event. rewrite load_initial_data_run. simpl.
    now rewrite find_loaded. }
  rewrite <- hd_filter_find in Hfind.
  destruct (first_seed sn data) as [item|] eqn:F.
  - destruct (filter (song_is sn) (tbl_songs d)) as [|r rest] eqn:Hf;
      [discriminate|].
    simpl in Hfind. inversion Hfind; subst r.
    pose proof (filter_head_song_is _ _ _ _ Hf) as Hsn. simpl in Hsn.
    eexists. rewrite (get_song_found _ _ _ _ _ Hf).
    unfold shown_song. simpl. rewrite Hsn. reflexivity.
  - apply get_song_missing.
    destruct (has_song sn d) eqn:E; auto.
    destruct (filter_song_is_cons _ _ E) as (r & rest & Hf & _).
    rewrite Hf in Hfind. discriminate.
Qed.

Lemma startup_first_seed_wins_witness :
  exists ts,
    get_song "S1" None (startup_event None (Some seed_twice)) =
    (Returned (mkSong "S1" "first" "one" ts),
     startup_event None (Some seed_twice)).
Proof.
  exact (startup_first_seed_wins seed_twice "S1").
Defined.

Lemma find_put_translation sn lang s d t :
  find (translation_is sn lang) (tbl_translations (put_translation s d t)) =
  match find (translation_is sn lang) (tbl_translations d) with
  | Some r => Some r
  | None => if (s =? sn) && (language t =? lang) then Some (row_of s t) else None
  end.
Proof.
  unfold put_translation. destruct (has_translation s (language t) d) eqn:E.
  - destruct (find (translation_is sn lang) (tbl_translations d)) eqn:F; auto.
    destruct ((s =? sn) && (language t =? lang)) eqn:K; auto.
    apply andb_true_iff in K as [K1 K2]. apply String.eqb_eq in K1, K2. subst.
    exfalso. now apply (find_none_existsb _ _ E).
  - simpl. rewrite find_app_or.
    destruct (find (translation_is sn lang) (tbl_translations d)); auto.
Qed.

Lemma find_put_translations sn lang s ts : forall d,
  find (translation_is sn lang)
       (tbl_translations (fold_left (put_translation s) ts d)) =
  match find (translation_is sn lang) (tbl_translations d) with
  | Some r => Some r
  | None =>
      if s =? sn
      then match find (fun t => language t =? lang) ts with
           | Some t => Some (row_of s t)
           | None => None
           end
      else None
  end.
Proof.
  induction ts as [|t ts IH]; intro d; simpl.
  - destruct (find _ (tbl_translations d)); auto. now destruct (s =? sn).
  - rewrite IH, find_put_translation.
    destruct (find (translation_is sn lang) (tbl_translations d)); auto.
    destruct (s =? sn); simpl; auto.
    now destruct (language t =? lang).
Qed.

Lemma find_loaded_translation sn lang data : forall d,
  find (translation_is sn lang)
       (tbl_translations (fold_left load_item data d)) =
  match find (translation_is sn lang) (tbl_translations d) with
  | Some r => Some r
  | None =>
      match first_seed_translation sn lang data with
      | Some t => Some (row_of sn t)
      | None => None
      end
  end.
Proof.
  unfold first_seed_translation.
  induction data as [|item data IH]; intro d; simpl.
  - now destruct (find _ (tbl_translations d)).
  - rewrite IH. unfold load_item. rewrite find_put_translations.
    assert (Hput : tbl_translations (put_song (seed_song_number item)
                      (seed_title_ta item) (seed_text_ta item) d) =
                   tbl_translations d).
    { unfold put_song. now destruct (has_song (seed_song_number item) d). }
    rewrite Hput.
    destruct (find (translation_is sn lang) (tbl_translations d)); auto.
    destruct (seed_song_number item =? sn) eqn:K; simpl; auto.
    apply String.eqb_eq in K. rewrite K, find_app_or.
    now destruct (find (fun t => language t =? lang) (get_translations item)).
Qed.

Lemma filter_unique_find sn lang l :
  NoDup (map translation_key l) ->
  filter (translation_is sn lang) l =
  match find (translation_is sn lang) l with
  | Some r => [r]
  | None => []
  end.
Proof.
  intro Hn. pose proof (at_most_one_row sn lang l Hn) as Hlen.
  rewrite <- hd_filter_find.
  destruct (filter (translation_is sn lang) l) as [|r [|r' rest]]; auto.
  simpl in Hlen. exfalso. inversion Hlen as [|? H]. inversion H.
Qed.

Lemma startup_song_row data sn item :
  first_seed sn data = Some item ->
  exists r rest,
    filter (song_is sn) (tbl_songs (startup_event None (Some data))) = r :: rest /\
    s_title_ta r = seed_title_ta item /\ s_text_ta r = seed_text_ta item.
Proof.
  intro Hitem.
  assert (Hfind : find (song_is sn) (tbl_songs (startup_event None (Some data))) =
                  Some (mk_songs_row (seed_song_number item)
                          (seed_title_ta item) (seed_text_ta item))).
  { unfold startup_event. rewrite load_initial_data_run. simpl.
    now rewrite find_loaded, Hitem. }
  rewrite <- hd_filter_find in Hfind.
  destruct (filter (song_is sn) (tbl_songs (startup_event None (Some data))))
    as [|r rest]; [discriminate|].
  simpl in Hfind. inversion Hfind; subst r. eexists _, rest. repeat split.
Qed.

(** X16: startup on a path with no tables, translations.  For a song
    [S] of the seed file and a non-empty language [X],
    [GET /songs/S?language=X] after [startup_event] returns the first
    translation for [X] among the seed objects numbered [S], in file
    order, and no translation when there is none. *)
Theorem startup_first_translation_wins (data : list seed_item) (sn X : string)
    (item : seed_item) :
  first_seed sn data = Some item ->
  X <> "" ->
  let d := startup_event None (Some data) in
  get_song sn (Some X) d =
  (Returned (mkSong sn (seed_title_ta item) (seed_text_ta item)
               match first_seed_translation sn X data with
               | Some t => [t]
               | None => []
               end), d).
Proof.
  intros Hitem HX d.
  destruct (startup_song_row data sn item Hitem) as (r & rest & Hf & Hti & Hte).
  fold d in Hf.
  assert (Hu : unique_keys d).
  { apply reachable_unique. unfold d, startup_event.
    apply reach_load, reach_init. }
  apply String.eqb_neq in HX.
  rewrite (get_song_found _ _ _ _ _ Hf).
  pose proof (filter_head_song_is _ _ _ _ Hf) as Hsn.
  unfold shown_song, shown_translations. simpl. rewrite HX, Hsn, Hti, Hte. simpl.
  do 3 f_equal. unfold translations_in.
  rewrite (filter_unique_find _ _ _ (proj2 Hu)).
  unfold d, startup_event. rewrite load_initial_data_run. cbn [snd].
  rewrite find_loaded_translation. simpl.
  destruct (first_seed_translation sn X data) as [[l ti te]|]; reflexivity.
Qed.

Lemma startup_first_translation_wins_witness :
  get_song "S1" (Some "en") (startup_event None (Some seed_twice)) =
  (Returned (mkSong "S1" "first" "one" [mkTranslation "en" "a" "b"]),
   startup_event None (Some seed_twice)).
Proof.
  assert (HX : "en" <> "") by discriminate.
  exact (startup_first_translation_wins seed_twice "S1" "en"
           (mk_seed_item "S1" "first" "one" (Some [mkTranslation "en" "a" "b"]))
           eq_refl HX).
Defined.

(** ** PATCH twice *)

Lemma upserts_rows sn ts : forall d,
  tbl_translations (fold_left (upsert_translation sn) ts d) =
  fold_left (upsert_rows sn) ts (tbl_translations d).
Proof.
  induction ts as [|t ts IH]; intro d; simpl; auto.
  rewrite IH. f_equal. unfold upsert_translation, upsert_rows, has_translation.
  now destruct (existsb (translation_is sn (language t)) (tbl_translations d)).
Qed.

Lemma last_for_cons lang t ts :
  last_for lang (t :: ts) =
  match last_for lang ts with
  | Some x => Some x
  | None => if language t =? lang then Some t else None
  end.
Proof. unfold last_for. simpl. now rewrite find_app_or. Qed.

Lemma last_for_snoc lang t ts :
  last_for lang (ts ++ [t]) =
  if language t =? lang then Some t else last_for lang ts.
Proof. unfold last_for. now rewrite rev_app_distr. Qed.

Lemma existsb_map_set sn lang ti te key_lang l :
  existsb (translation_is sn key_lang) (map (set_title_text sn lang ti te) l) =
  existsb (translation_is sn key_lang) l.
Proof.
  induction l as [|r l IH]; simpl; auto.
  now rewrite set_title_text_is, IH.
Qed.

Lemma upsert_rows_present sn l t :
  existsb (translation_is sn (language t)) (upsert_rows sn l t) = true.
Proof.
  unfold upsert_rows.
  destruct (existsb (translation_is sn (language t)) l) eqn:E.
  - now rewrite existsb_map_set.
  - rewrite existsb_app. simpl. unfold translation_is at 2. simpl.
    rewrite !String.eqb_refl. simpl. apply orb_true_r.
Qed.

Lemma upsert_rows_keeps sn lang l t :
  existsb (translation_is sn lang) l = true ->
  existsb (translation_is sn lang) (upsert_rows sn l t) = true.
Proof.
  intro H. unfold upsert_rows.
  destruct (existsb (translation_is sn (language t)) l).
  - now rewrite existsb_map_set.
  - rewrite existsb_app, H. reflexivity.
Qed.

Lemma upserts_rows_keep sn lang ts : forall l,
  existsb (translation_is sn lang) l = true ->
  existsb (translation_is sn lang) (fold_left (upsert_rows sn) ts l) = true.
Proof.
  induction ts as [|t ts IH]; intros l H; simpl; auto.
  apply IH. now apply upsert_rows_keeps.
Qed.

Lemma upserts_rows_cover sn ts : forall l t,
  In t ts ->
  existsb (translation_is sn (language t)) (fold_left (upsert_rows sn) ts l) = true.
Proof.
  induction ts as [|t0 ts IH]; intros l t Hin; [destruct Hin|].
  simpl. destruct Hin as [->|Hin].
  - apply upserts_rows_keep, upsert_rows_present.
  - now apply IH.
Qed.

Lemma retitle_cons sn t ts r :
  retitle sn (t :: ts) r =
  retitle sn ts (set_title_text sn (language t) (title t) (text t) r).
Proof.
  unfold retitle, set_title_text, translation_is, translation_of.
  rewrite last_for_cons.
  destruct (t_song_number r =? sn) eqn:Es; simpl; [|now rewrite Es].
  destruct (t_language r =? language t) eqn:El; simpl.
  - rewrite Es. apply String.eqb_eq in El.
    rewrite <- El, String.eqb_refl.
    now destruct (last_for (t_language r) ts).
  - rewrite Es. rewrite String.eqb_sym in El. rewrite El.
    now destruct (last_for (t_language r) ts).
Qed.

Lemma upserts_rows_covered sn ts : forall l,
  (forall t, In t ts -> existsb (translation_is sn (language t)) l = true) ->
  fold_left (upsert_rows sn) ts l = map (retitle sn ts) l.
Proof.
  induction ts as [|t ts IH]; intros l H; simpl.
  - rewrite <- (map_id l) at 1. apply map_ext. intro r.
    unfold retitle, last_for. simpl. now destruct (translation_of sn r).
  - unfold upsert_rows at 2. rewrite (H t) by now left.
    rewrite IH.
    + rewrite map_map. apply map_ext. intro r. now rewrite retitle_cons.
    + intros u Hu. rewrite existsb_map_set. apply H. now right.
Qed.

Lemma upserts_rows_settled sn ts : forall l r t,
  In r (fold_left (upsert_rows sn) ts l) ->
  translation_of sn r = true ->
  last_for (t_language r) ts = Some t ->
  t_title r = title t /\ t_text r = text t.
Proof.
  induction ts as [|t0 ts IH] using rev_ind; intros l r t Hin Hsn Hlast.
  - discriminate.
  - rewrite fold_left_app in Hin. simpl in Hin.
    rewrite last_for_snoc in Hlast.
    specialize (IH l). revert IH Hin.
    generalize (fold_left (upsert_rows sn) ts l). intros l' IH Hin.
    unfold upsert_rows in Hin.
    destruct (existsb (translation_is sn (language t0)) l') eqn:E.
    + apply in_map_iff in Hin as (r0 & <- & Hin0).
      unfold set_title_text in *.
      destruct (translation_is sn (language t0) r0) eqn:Er.
      * simpl in *. unfold translation_is in Er.
        apply andb_true_iff in Er as [_ Er]. rewrite String.eqb_sym in Er.
        rewrite Er in Hlast. inversion Hlast; subst. now split.
      * assert (Hl : (language t0 =? t_language r0) = false).
        { unfold translation_is in Er. unfold translation_of in Hsn.
          rewrite Hsn in Er. simpl in Er. now rewrite String.eqb_sym. }
        rewrite Hl in Hlast. now apply IH.
    + apply in_app_or in Hin as [Hin|[<-|[]]].
      * assert (Hl : (language t0 =? t_language r) = false).
        { destruct (language t0 =? t_language r) eqn:K; auto.
          assert (existsb (translation_is sn (language t0)) l' = true);
            [|congruence].
          apply existsb_exists. exists r. split; auto.
          unfold translation_is. unfold translation_of in Hsn.
          rewrite Hsn. simpl. now rewrite String.eqb_sym. }
        rewrite Hl in Hlast. now apply IH.
      * simpl in *. rewrite String.eqb_refl in Hlast.
        inversion Hlast; subst. now split.
Qed.

Lemma upserts_rows_twice sn ts l :
  fold_left (upsert_rows sn) ts (fold_left (upsert_rows sn) ts l) =
  fold_left (upsert_rows sn) ts l.
Proof.
  rewrite upserts_rows_covered by (intros t Ht; now apply upserts_rows_cover).
  rewrite <- (map_id (fold_left (upsert_rows sn) ts l)) at 2.
  apply map_ext_in. intros r Hin. unfold retitle.
  destruct (translation_of sn r) eqn:Hsn; auto.
  destruct (last_for (t_language r) ts) as [t|] eqn:Hlast; auto.
  destruct (upserts_rows_settled sn ts l r t Hin Hsn Hlast) as [H1 H2].
  destruct r; simpl in *. now subst.
Qed.

Lemma patch_row_twice sn song r :
  patch_row sn song (patch_row sn song r) = patch_row sn song r.
Proof.
  unfold patch_row. destruct (song_is sn r) eqn:E; [|now rewrite E].
  unfold song_is in *. simpl. rewrite E. f_equal;
    unfold new_value;
    [destruct (SongUpdate.title_ta song) as [v|]
    |destruct (SongUpdate.text_ta song) as [v|]]; simpl; auto;
    now destruct (v =? "").
Qed.

Lemma patched_translations sn song d :
  tbl_translations (patched sn song d) =
  match SongUpdate.translations song with
  | Some ts => fold_left (upsert_rows sn) ts (tbl_translations d)
  | None => tbl_translations d
  end.
Proof.
  unfold patched, patch_translations.
  destruct (SongUpdate.translations song) as [ts|].
  - now rewrite upserts_rows, patch_columns_translations.
  - apply patch_columns_translations.
Qed.

(** X17: [PATCH] is idempotent.  Sending the same [PATCH] a second time
    gives the same response as the first time and leaves the store as
    the first one left it. *)
Theorem patch_twice (sn : string) (song : SongUpdate.t) (d : Database) :
  update_song sn song (snd (update_song sn song d)) = update_song sn song d.
Proof.
  destruct (has_song sn d) eqn:E.
  - assert (E1 : has_song sn (patched sn song d) = true).
    { unfold has_song in *. rewrite patched_songs.
      clear -E. induction (tbl_songs d) as [|r l IH]; simpl in *; auto.
      rewrite patch_row_song_is. destruct (song_is sn r); simpl; auto. }
    rewrite (update_song_run _ _ _ E). cbn [snd].
    rewrite (update_song_run _ _ _ E1).
    assert (Hp : patched sn song (patched sn song d) = patched sn song d).
    { assert (Heta : forall a b : Database,
                tbl_songs a = tbl_songs b ->
                tbl_translations a = tbl_translations b -> a = b).
      { intros [a1 a2] [b1 b2]; simpl; intros; now subst. }
      apply Heta.
      - rewrite !patched_songs, map_map. apply map_ext. intro r.
        apply patch_row_twice.
      - rewrite !patched_translations.
        destruct (SongUpdate.translations song) as [ts|]; auto.
        apply upserts_rows_twice. }
    now rewrite Hp.
  - rewrite (update_song_missing _ _ _ E). cbn [snd].
    now rewrite (update_song_missing _ _ _ E).
Qed.

(** ** DELETE: what is removed *)

(** X18: [DELETE /songs/S] removes the [songs] rows numbered [S] and
    nothing else: the other songs stay listed, in order, and the
    [translations] table is exactly what it was, the rows of [S]
    included. *)
Theorem delete_song_removes_only_song_rows (sn : string) (d : Database) :
  tbl_songs (snd (delete_song sn d)) =
    filter (fun r => negb (s_song_number r =? sn)) (tbl_songs d) /\
  tbl_translations (snd (delete_song sn d)) = tbl_translations d /\
  (forall language, exists songs,
     fst (get_songs language (snd (delete_song sn d))) = Returned songs /\
     map song_number songs =
     filter (fun x => negb (x =? sn)) (map s_song_number (tbl_songs d))) /\
  all_translations sn (snd (delete_song sn d)) = all_translations sn d.
Proof.
  rewrite delete_song_run. cbn [snd]. unfold without_song.
  split; [reflexivity|]. split; [reflexivity|]. split; [|reflexivity].
  intro language. rewrite get_songs_run. eexists. split; [reflexivity|].
  simpl. rewrite map_map. simpl. unfold song_is.
  induction (tbl_songs d) as [|r l IH]; simpl; auto.
  destruct (s_song_number r =? sn); simpl; now rewrite IH.
Qed.
